(** * PlayList (util/tracklist.py): a shallow embedding and its properties

    The class [PlayList] owns a list of track references, an index into
    it, the track being timed and a pause flag.  Track objects are shared
    mutable Python objects: the same object may sit in [track_list], be
    [current_track], and be held by the caller.  The embedding therefore
    keeps a store of track objects addressed by reference, and every
    method is a computation that threads the whole state and may raise.

    Numbers ([time.time()], [Track.time], [Track.start], [Track.pause],
    offsets) are integers here: the clock is read in whole ticks. *)

From Stdlib Require Import ZArith Lia DecimalString DecimalPos DecimalZ.
From stdpp Require Import base list gmap strings sorting.

Open Scope Z_scope.

(** ** Track objects *)

(** The value of [Track.id]; only its truth value is used by the class. *)
Inductive ident :=
| IdNone
| IdStr (s : string)
| IdInt (z : Z).

Definition truthy (i : ident) : bool :=
  match i with
  | IdNone => false
  | IdStr s => negb (String.eqb s "")
  | IdInt z => negb (z =? 0)
  end.

Module Track.
Record t := mk {
  id : ident;
  title : string;
  owner : string;
  time : Z;
  start : Z;
  pause : Z
}.

Definition set_owner (o : string) (x : t) : t :=
  mk (id x) (title x) o (time x) (start x) (pause x).
Definition set_start (v : Z) (x : t) : t :=
  mk (id x) (title x) (owner x) (time x) v (pause x).
Definition set_pause (v : Z) (x : t) : t :=
  mk (id x) (title x) (owner x) (time x) (start x) v.
End Track.

(** A reference to a track object, and the store of all track objects. *)
Definition ref := nat.
Definition Heap := ref -> Track.t.

Definition upd (h : Heap) (r : ref) (x : Track.t) : Heap :=
  fun r' => if Nat.eqb r' r then x else h r'.

(** ** Python sequences *)

Definition len {A} (l : list A) : Z := Z.of_nat (length l).

(** [l[i]]: a negative index counts from the end; [None] is IndexError. *)
Definition py_getitem {A} (l : list A) (i : Z) : option A :=
  if 0 <=? i then l !! Z.to_nat i
  else if 0 <=? len l + i then l !! Z.to_nat (len l + i)
  else None.

(** [del l[i]]: same index rule; [None] is IndexError. *)
Definition py_delitem {A} (l : list A) (i : Z) : option (list A) :=
  if 0 <=? i then
    if i <? len l then Some (delete (Z.to_nat i) l) else None
  else if 0 <=? len l + i then Some (delete (Z.to_nat (len l + i)) l)
  else None.

(** [range(a, b)] *)
Definition py_range (a b : Z) : list Z :=
  map (fun k => a + Z.of_nat k) (seq 0 (Z.to_nat (b - a))).

(** [sorted(l, reverse=True)] on integers *)
Definition Zge_dec_rel (x y : Z) : Prop := y <= x.
#[local] Instance Zge_dec_rel_dec x y : Decision (Zge_dec_rel x y).
Proof. unfold Zge_dec_rel. apply _. Defined.

Definition sorted_reverse (l : list Z) : list Z := merge_sort Zge_dec_rel l.

(** [str(i)] and [int(s)] on integers; [None] is ValueError. *)
Definition py_str (i : Z) : string := NilZero.string_of_int (Z.to_int i).
Definition py_int (s : string) : option Z :=
  option_map Z.of_int (NilZero.int_of_string s).

(** ** Values held by the dictionary that [delete] returns *)
Inductive pyval :=
| VStr (s : string)
| VInt (z : Z)
| VList (l : list string).

(** ** The state of a [PlayList] object, with the track store *)
Record State := mkState {
  track_list : list ref;
  track_index : Z;
  current_track : option ref;
  is_paused : bool;
  heap : Heap
}.

Definition with_track_list (l : list ref) (s : State) : State :=
  mkState l (track_index s) (current_track s) (is_paused s) (heap s).
Definition with_track_index (i : Z) (s : State) : State :=
  mkState (track_list s) i (current_track s) (is_paused s) (heap s).
Definition with_current_track (c : option ref) (s : State) : State :=
  mkState (track_list s) (track_index s) c (is_paused s) (heap s).
Definition with_is_paused (b : bool) (s : State) : State :=
  mkState (track_list s) (track_index s) (current_track s) b (heap s).
Definition with_heap (h : Heap) (s : State) : State :=
  mkState (track_list s) (track_index s) (current_track s) (is_paused s) h.

(** ** Computations: state passing with exceptions

    A raised exception keeps the state as it was when it was raised: the
    assignments made before the raise stay. *)
Inductive exn := IndexError | AttributeError | ValueError.

Inductive outcome (A : Type) :=
| Ret (a : A)
| Raise (e : exn).
Arguments Ret {A} a.
Arguments Raise {A} e.

Definition M (A : Type) : Type := State -> outcome A * State.

Definition ret {A} (a : A) : M A := fun s => (Ret a, s).
Definition raise {A} (e : exn) : M A := fun s => (Raise e, s).
Definition bind {A B} (m : M A) (k : A -> M B) : M B :=
  fun s => match m s with
           | (Ret a, s') => k a s'
           | (Raise e, s') => (Raise e, s')
           end.
Definition get : M State := fun s => (Ret s, s).
Definition modify (f : State -> State) : M unit := fun s => (Ret tt, f s).
Definition lift {A} (e : exn) (o : option A) : M A :=
  match o with Some a => ret a | None => raise e end.

Notation "'do' x <- m ; k" := (bind m (fun x => k))
  (at level 10, x name, m at level 100, k at level 200).
Notation "m ;; k" := (bind m (fun _ => k))
  (at level 100, k at level 200, right associativity).

(** The final state and the result of running a method. *)
Definition result {A} (m : M A) (s : State) : outcome A := fst (m s).
Definition after {A} (m : M A) (s : State) : State := snd (m s).

(** Attribute access and assignment on a track object. *)
Definition getattr {A} (f : Track.t -> A) (r : ref) : M A :=
  fun s => (Ret (f (heap s r)), s).
Definition setattr (f : Track.t -> Track.t) (r : ref) : M unit :=
  modify (fun s => with_heap (upd (heap s) r (f (heap s r))) s).

(** [self.current_track.<attr>]: AttributeError when it is [None]. *)
Definition the_current : M ref :=
  do s <- get; lift AttributeError (current_track s).

(** [for x in l: body], with the loop's local variables as an accumulator. *)
Fixpoint for_fold {A B} (l : list A) (body : B -> A -> M B) (acc : B) : M B :=
  match l with
  | [] => ret acc
  | x :: l' => do acc' <- body acc x; for_fold l' body acc'
  end.

Definition for_each {A} (l : list A) (body : A -> M unit) : M unit :=
  for_fold l (fun _ x => body x) tt.

(** ** The methods of [PlayList]

    A method that reads [time.time()] takes the value read as [now]; a
    method that reads it twice takes both readings. *)
Module PlayList.

(** [__init__], over a given store of track objects *)
Definition init (h : Heap) : State := mkState [] 0 None false h.

Definition track : M (option ref) :=
  do s <- get; ret (current_track s).

Definition current_index : M Z :=
  do s <- get; ret (track_index s).

Definition last_index : M Z :=
  do s <- get;
  if len (track_list s) =? 0 then ret 0
  else ret (len (track_list s) - 1).

Definition elapsed (now : Z) : M Z :=
  do s <- get;
  match current_track s with
  | Some c =>
      if is_paused s then getattr Track.pause c
      else
        do st <- getattr Track.start c;
        let elapsed := now - st in
        do tm <- getattr Track.time c;
        if tm <? elapsed then ret 0 else ret elapsed
  | None => ret 0
  end.

Definition has_active_track (now now' : Z) : M bool :=
  do s <- get;
  if is_paused s then ret true
  else
    do e <- elapsed now;
    if e =? 0 then ret false
    else
      do e' <- elapsed now';
      if 0 <? e' then ret true else ret false.

Definition remaining (now : Z) : M Z :=
  do s <- get;
  match current_track s with
  | Some c =>
      do tm <- getattr Track.time c;
      do e <- elapsed now;
      let time_left := tm - e in
      ret time_left
  | None => ret 0
  end.

Definition next_track (now : Z) : M (option ref) :=
  do s <- get;
  if 0 <? len (track_list s) then
    if track_index s <=? len (track_list s) then
      do next_track <- lift IndexError
                         (py_getitem (track_list s) (track_index s));
      modify (with_current_track (Some next_track));;
      do c <- the_current;
      setattr (Track.set_start now) c;;
      modify (fun s => with_track_index (track_index s + 1) s);;
      ret (Some next_track)
    else ret None
  else ret None.

Definition is_last_track : M (option bool) :=
  do s <- get;
  if 0 <? len (track_list s) then
    if len (track_list s) <=? track_index s then ret (Some true)
    else ret (Some false)
  else ret None.

Definition queue : M (option (Z * Z)) :=
  do s <- get;
  if 0 <? len (track_list s) then
    let remaining := len (track_list s) - track_index s in
    let queue := (len (track_list s), remaining) in
    ret (Some queue)
  else ret None.

Definition unpause : M unit :=
  do s <- get;
  if is_paused s then modify (with_is_paused false) else ret tt.

Definition start (owner : string) (track : ref) (now : Z) : M ref :=
  unpause;;
  modify (with_current_track (Some track));;
  do c <- the_current;
  setattr (Track.set_owner owner) c;;
  do c <- the_current;
  setattr (Track.set_start now) c;;
  the_current.

Definition play (offset : Z) (now now' : Z) : M Z :=
  unpause;;
  do c <- the_current;
  setattr (Track.set_start (now - offset)) c;;
  remaining now'.

Definition replay (now : Z) : M ref :=
  unpause;;
  do c <- the_current;
  setattr (Track.set_start now) c;;
  the_current.

(** [offset] defaults to [0] *)
Definition pause (offset : Z) (now : Z) : M unit :=
  modify (with_is_paused true);;
  if negb (offset =? 0) then
    do c <- the_current;
    setattr (Track.set_pause offset) c
  else
    do c <- the_current;
    do st <- getattr Track.start c;
    do c <- the_current;
    setattr (Track.set_pause (now - st)) c.

Definition stop : M unit :=
  modify (with_is_paused false);;
  do c <- the_current;
  setattr (Track.set_start 0) c;;
  do c <- the_current;
  setattr (Track.set_pause 0) c.

Definition add (owner : string) (track : ref) : M (option ref) :=
  do i <- getattr Track.id track;
  if truthy i then
    setattr (Track.set_owner owner) track;;
    modify (fun s => with_track_list (track_list s ++ [track]) s);;
    ret (Some track)
  else ret None.

(** [tracks] is a list of its own, not the object's [track_list]. *)
Definition add_list (owner : string) (tracks : list ref) : M unit :=
  if 0 <? len tracks then
    for_each tracks (fun track => add owner track;; ret tt)
  else ret tt.

Definition clear : M bool :=
  do s <- get;
  if 0 <? len (track_list s) then
    modify (with_track_list []);;
    modify (with_track_index 0);;
    ret true
  else ret false.

(** The body of the loop of [get_tracks]; [acc] is [(result, ic)]. *)
Definition get_tracks_step (amount : Z) (acc : list (Z * ref) * Z) (i : Z)
  : M (list (Z * ref) * Z) :=
  let '(result, ic) := acc in
  if ic <=? amount - 1 then
    do s <- get;
    do x <- lift IndexError (py_getitem (track_list s) i);
    let _track := (i, x) in
    ret (result ++ [_track], ic + 1)
  else ret (result, ic).

(** [amount] defaults to [5], [from_index] to [True] *)
Definition get_tracks (amount : Z) (from_index : bool)
  : M (list (Z * ref)) :=
  do s <- get;
  if 0 <? len (track_list s) then
    let start_index := if from_index then track_index s else 0 in
    do acc <- for_fold (py_range start_index (len (track_list s)))
                (get_tracks_step amount) ([], 0);
    ret (fst acc)
  else ret [].

(** [jump] defaults to [0] *)
Definition next_track_info (jump : Z) : M (option (Z * ref)) :=
  do s <- get;
  if negb (jump =? 0) then
    if track_index s + jump <? len (track_list s) then
      do x <- lift IndexError
                (py_getitem (track_list s) (track_index s + jump));
      ret (Some (track_index s + jump, x))
    else ret None
  else if track_index s <? len (track_list s) then
    do x <- lift IndexError (py_getitem (track_list s) (track_index s));
    ret (Some (track_index s, x))
  else ret None.

(** The body of the loop of [delete]. *)
Definition delete_step (deleted_indexes : list string) (i : Z)
  : M (list string) :=
  do s <- get;
  if (track_index s <=? i) && (i <? len (track_list s)) then
    do l <- lift IndexError (py_delitem (track_list s) i);
    modify (with_track_list l);;
    ret (deleted_indexes ++ [py_str i])
  else ret deleted_indexes.

(** [by_range] defaults to [False] *)
Definition delete (indexes : list Z) (by_range : bool)
  : M (option (gmap string pyval)) :=
  do s <- get;
  let tracks := track_list s in
  do deleted_indexes <- for_fold (sorted_reverse indexes) delete_step [];
  let deleted_indexes := reverse deleted_indexes in
  if 0 <? len deleted_indexes then
    do _result <-
      (if by_range then
         do x <- lift IndexError (py_getitem deleted_indexes 0);
         do y <- lift IndexError (py_getitem deleted_indexes (-1));
         ret (<["to" := VStr y]> (<["from" := VStr x]> ∅))
       else if len deleted_indexes =? 1 then
         do x <- lift IndexError (py_getitem deleted_indexes 0);
         do k <- lift ValueError (py_int x);
         do r <- lift IndexError (py_getitem tracks k);
         do ti <- getattr Track.title r;
         ret (<["track_title" := VStr ti]> ∅)
       else ret ∅);
    ret (Some (<["deleted_indexes_len" := VInt (len deleted_indexes)]>
                 (<["deleted_indexes" := VList deleted_indexes]> _result)))
  else ret None.

End PlayList.

(** ** Calls and reachable states *)

(** A call of a public method or a read of a property, with its arguments
    and the clock values it reads. *)
Inductive call :=
| Track_
| CurrentIndex
| LastIndex
| HasActiveTrack (now now' : Z)
| Elapsed (now : Z)
| Remaining (now : Z)
| NextTrack (now : Z)
| IsLastTrack
| Queue
| Start (owner : string) (track : ref) (now : Z)
| Play (offset now now' : Z)
| Replay (now : Z)
| Pause (offset now : Z)
| Stop
| Add (owner : string) (track : ref)
| AddList (owner : string) (tracks : list ref)
| Clear
| GetTracks (amount : Z) (from_index : bool)
| NextTrackInfo (jump : Z)
| Delete (indexes : list Z) (by_range : bool).

(** The state a call leaves behind, whether it returned or raised. *)
Definition exec (c : call) (s : State) : State :=
  match c with
  | Track_ => after PlayList.track s
  | CurrentIndex => after PlayList.current_index s
  | LastIndex => after PlayList.last_index s
  | HasActiveTrack now now' => after (PlayList.has_active_track now now') s
  | Elapsed now => after (PlayList.elapsed now) s
  | Remaining now => after (PlayList.remaining now) s
  | NextTrack now => after (PlayList.next_track now) s
  | IsLastTrack => after PlayList.is_last_track s
  | Queue => after PlayList.queue s
  | Start owner track now => after (PlayList.start owner track now) s
  | Play offset now now' => after (PlayList.play offset now now') s
  | Replay now => after (PlayList.replay now) s
  | Pause offset now => after (PlayList.pause offset now) s
  | Stop => after PlayList.stop s
  | Add owner track => after (PlayList.add owner track) s
  | AddList owner tracks => after (PlayList.add_list owner tracks) s
  | Clear => after PlayList.clear s
  | GetTracks amount from_index =>
      after (PlayList.get_tracks amount from_index) s
  | NextTrackInfo jump => after (PlayList.next_track_info jump) s
  | Delete indexes by_range => after (PlayList.delete indexes by_range) s
  end.

(** The states an object reaches from [__init__] by any calls. *)
Inductive reachable : State -> Prop :=
| reachable_init h : reachable (PlayList.init h)
| reachable_call s c : reachable s -> reachable (exec c s).

(** [play], [replay], [pause] and [stop] use [current_track] unchecked. *)
Definition transport (c : call) : bool :=
  match c with
  | Play _ _ _ | Replay _ | Pause _ _ | Stop => true
  | _ => false
  end.

(** The caller's side of the contract: a transport method is called only
    when there is a current track. *)
Definition guarded (s : State) (c : call) : Prop :=
  transport c = true -> current_track s <> None.

Inductive reachable_guarded : State -> Prop :=
| reachable_guarded_init h : reachable_guarded (PlayList.init h)
| reachable_guarded_call s c :
    reachable_guarded s -> guarded s c -> reachable_guarded (exec c s).

Definition cursor_inv (s : State) : Prop :=
  0 <= track_index s <= len (track_list s).

Definition pause_inv (s : State) : Prop :=
  is_paused s = true -> current_track s <> None.

(** ** What [delete] is meant to do, stated on positions *)

(** [l] without the entries whose position, counted from [k], is in [q]. *)
Fixpoint remove_positions {A} (q : list Z) (k : Z) (l : list A) : list A :=
  match l with
  | [] => []
  | x :: l' =>
      if bool_decide (k ∈ q) then remove_positions q (k + 1) l'
      else x :: remove_positions q (k + 1) l'
  end.

(** The test of the loop of [delete] against the list as it was at the
    call. *)
Definition qualifies (s : State) (i : Z) : bool :=
  (track_index s <=? i) && (i <? len (track_list s)).

(** The calls that only read. *)
Definition is_query (c : call) : bool :=
  match c with
  | Track_ | CurrentIndex | LastIndex | HasActiveTrack _ _ | Elapsed _
  | Remaining _ | IsLastTrack | Queue | GetTracks _ _ | NextTrackInfo _ => true
  | _ => false
  end.

(** The test of [add] on a track, in a given store. *)
Definition valid (h : Heap) (t : ref) : bool := truthy (Track.id (h t)).

(** The fields that [delete] never assigns. *)
Definition same_but_list (s s' : State) : Prop :=
  track_index s' = track_index s /\
  current_track s' = current_track s /\
  is_paused s' = is_paused s /\
  heap s' = heap s.

(** The attributes of a track object that no method assigns. *)
Definition same_static (h h' : Heap) : Prop :=
  forall r,
    Track.id (h' r) = Track.id (h r) /\
    Track.title (h' r) = Track.title (h r) /\
    Track.time (h' r) = Track.time (h r).

(** A caller's loop: [next_track] is read once per clock value, and the
    values read are collected. *)
Definition serve (nows : list Z) : M (list (option ref)) :=
  for_fold nows
    (fun served now => do x <- PlayList.next_track now; ret (served ++ [x]))
    [].

(** The pairs [(i, l[i])] for [i] from [a], at most [n] of them. *)
Definition enumerate_from {A} (a : Z) (n : nat) (l : list A) : list (Z * A) :=
  imap (fun k x => (a + Z.of_nat k, x)) (take n (drop (Z.to_nat a) l)).

(** Every entry of the list passes the test of [add]. *)
Definition entries_valid (s : State) : Prop :=
  Forall (fun t => valid (heap s) t = true) (track_list s).

(** ** Example objects *)

Definition example_track (i : ident) (ti : string) (tm : Z) : Track.t :=
  Track.mk i ti "" tm 0 0.

Definition example_heap : Heap :=
  fun r =>
    match r with
    | 0%nat => example_track (IdStr "a") "A" 200
    | 1%nat => example_track (IdStr "b") "B" 100
    | 2%nat => example_track (IdStr "c") "C" 50
    | 3%nat => example_track IdNone "D" 5
    | _ => example_track (IdInt 0) "E" 1
    end.

(** One track added. *)
Definition example_one : State :=
  exec (Add "alice" 0%nat) (PlayList.init example_heap).

(** One track added and served: the index is at the end of the list. *)
Definition example_served : State := exec (NextTrack 7) example_one.

(** Three tracks added, none served. *)
Definition example_three : State :=
  exec (AddList "alice" [0; 1; 2]%nat) (PlayList.init example_heap).

(** A track started at clock value 10. *)
Definition example_started : State :=
  exec (Start "alice" 0%nat 10) (PlayList.init example_heap).

(** ** Running computations *)

Lemma bind_run {A B} (m : M A) (k : A -> M B) s :
  bind m k s =
  match m s with
  | (Ret a, s') => k a s'
  | (Raise e, s') => (Raise e, s')
  end.
Proof. reflexivity. Qed.

Ltac run :=
  unfold after, result, bind, get, ret, raise, modify, lift, getattr,
    setattr, the_current; cbn.

Ltac innermost x :=
  lazymatch x with
  | context [match _ with _ => _ end] => fail
  | context [if _ then _ else _] => fail
  | _ => idtac
  end.

Ltac split_ifs :=
  repeat match goal with
         | |- context [if ?b then _ else _] =>
             innermost b; destruct b eqn:?; cbn
         | |- context [match ?x with _ => _ end] =>
             innermost x; destruct x eqn:?; cbn
         end.

Lemma len_nil {A} : len (@nil A) = 0.
Proof. reflexivity. Qed.

Lemma len_cons {A} (x : A) l : len (x :: l) = len l + 1.
Proof. unfold len. cbn [length]. lia. Qed.

Lemma len_app {A} (l1 l2 : list A) : len (l1 ++ l2) = len l1 + len l2.
Proof. unfold len. rewrite length_app. lia. Qed.

Lemma len_nonneg {A} (l : list A) : 0 <= len l.
Proof. unfold len. lia. Qed.

Lemma for_fold_frame {A B} (body : B -> A -> M B) (l : list A) :
  (forall acc x s, snd (body acc x s) = s) ->
  forall acc s, snd (for_fold l body acc s) = s.
Proof.
  intros Hbody. induction l as [|x l IH]; intros acc s; cbn.
  - reflexivity.
  - unfold bind. specialize (Hbody acc x s).
    destruct (body acc x s) as [[acc'|e] s']; cbn in Hbody; subst s'.
    + apply IH.
    + reflexivity.
Qed.

(** ** Timing *)

(** C4 (as amended): [elapsed] is 0 with no current track, the stored
    [pause] while paused, and otherwise [now - start], or 0 once that
    exceeds the track's [time]; the value is non-negative provided the
    stored [pause] is (when paused) and [start] is not after [now] (when
    not paused). *)
Theorem elapsed_cases (now : Z) (s : State) :
  (current_track s = None -> result (PlayList.elapsed now) s = Ret 0) /\
  (forall c, current_track s = Some c -> is_paused s = true ->
     result (PlayList.elapsed now) s = Ret (Track.pause (heap s c))) /\
  (forall c, current_track s = Some c -> is_paused s = false ->
     Track.time (heap s c) < now - Track.start (heap s c) ->
     result (PlayList.elapsed now) s = Ret 0) /\
  (forall c, current_track s = Some c -> is_paused s = false ->
     now - Track.start (heap s c) <= Track.time (heap s c) ->
     result (PlayList.elapsed now) s = Ret (now - Track.start (heap s c))) /\
  (forall c, current_track s = Some c ->
     (is_paused s = true -> 0 <= Track.pause (heap s c)) ->
     (is_paused s = false -> Track.start (heap s c) <= now) ->
     exists v, result (PlayList.elapsed now) s = Ret v /\ 0 <= v).
Proof.
  unfold PlayList.elapsed. run.
  repeat split.
  - intros ->. reflexivity.
  - intros c -> ->. reflexivity.
  - intros c -> -> Hlt. cbn.
    destruct (Z.ltb_spec (Track.time (heap s c)) (now - Track.start (heap s c)));
      [reflexivity | lia].
  - intros c -> -> Hle. cbn.
    destruct (Z.ltb_spec (Track.time (heap s c)) (now - Track.start (heap s c)));
      [lia | reflexivity].
  - intros c -> Hp Hs. destruct (is_paused s); cbn.
    + eexists; split; [reflexivity | auto].
    + destruct (Z.ltb_spec (Track.time (heap s c))
                  (now - Track.start (heap s c)));
        eexists; (split; [reflexivity | ]); [lia | specialize (Hs eq_refl); lia].
Qed.

(** C4, as stated, fails: read before the stored start (the clock set
    back, or [play] with a negative offset), or paused at a negative
    offset, [elapsed] is negative. *)
Lemma elapsed_negative :
  result (PlayList.elapsed 5) example_started = Ret (-5) /\
  result (PlayList.elapsed 50) (exec (Pause (-3) 20) example_started)
  = Ret (-3).
Proof. split; reflexivity. Qed.

(** C7: [remaining] is 0 with no current track and otherwise the track's
    [time] minus [elapsed] read at the same clock value; for a track that
    is not paused and has not run out this is [time - (now - start)]. *)
Theorem remaining_is_time_minus_elapsed (now : Z) (s : State) :
  (current_track s = None -> result (PlayList.remaining now) s = Ret 0) /\
  (forall c, current_track s = Some c ->
     exists e, result (PlayList.elapsed now) s = Ret e /\
               result (PlayList.remaining now) s
               = Ret (Track.time (heap s c) - e)) /\
  (forall c, current_track s = Some c -> is_paused s = false ->
     now - Track.start (heap s c) <= Track.time (heap s c) ->
     result (PlayList.remaining now) s
     = Ret (Track.time (heap s c) - (now - Track.start (heap s c)))).
Proof.
  destruct s as [tl ti cur p h].
  unfold PlayList.remaining, PlayList.elapsed. run.
  repeat split.
  - intros ->. reflexivity.
  - intros c ->. destruct p; cbn.
    + eexists; split; reflexivity.
    + destruct (_ <? _); eexists; split; reflexivity.
  - intros c -> -> Hle. cbn.
    destruct (Z.ltb_spec (Track.time (h c)) (now - Track.start (h c)));
      [lia | reflexivity].
Qed.

(** ** Queries leave the state alone *)

Lemma elapsed_frame now s : after (PlayList.elapsed now) s = s.
Proof.
  destruct s as [tl ti [c|] p h]; unfold PlayList.elapsed; run;
    split_ifs; reflexivity.
Qed.

Lemma remaining_frame now s : after (PlayList.remaining now) s = s.
Proof.
  destruct s as [tl ti [c|] p h]; unfold PlayList.remaining, PlayList.elapsed;
    run; split_ifs; reflexivity.
Qed.

Lemma has_active_track_frame now now' s :
  after (PlayList.has_active_track now now') s = s.
Proof.
  destruct s as [tl ti [c|] p h];
    unfold PlayList.has_active_track, PlayList.elapsed; run;
    split_ifs; reflexivity.
Qed.

Lemma get_tracks_step_frame amount acc i s :
  snd (PlayList.get_tracks_step amount acc i s) = s.
Proof.
  destruct acc as [res ic]. unfold PlayList.get_tracks_step. run.
  split_ifs; reflexivity.
Qed.

Lemma get_tracks_frame amount from_index s :
  after (PlayList.get_tracks amount from_index) s = s.
Proof.
  unfold PlayList.get_tracks, after. rewrite bind_run. cbn.
  destruct (0 <? len (track_list s)); [|reflexivity].
  rewrite bind_run.
  match goal with
  | |- context [for_fold ?l ?b ?a s] =>
      pose proof (for_fold_frame b l (get_tracks_step_frame amount) a s) as Hf;
      destruct (for_fold l b a s) as [[x|e] s']
  end; cbn in *; congruence.
Qed.

Lemma next_track_info_frame jump s :
  after (PlayList.next_track_info jump) s = s.
Proof.
  unfold PlayList.next_track_info. run. split_ifs; reflexivity.
Qed.

Lemma is_last_track_frame s : after PlayList.is_last_track s = s.
Proof. unfold PlayList.is_last_track. run. split_ifs; reflexivity. Qed.

Lemma queue_frame s : after PlayList.queue s = s.
Proof. unfold PlayList.queue. run. split_ifs; reflexivity. Qed.

Lemma last_index_frame s : after PlayList.last_index s = s.
Proof. unfold PlayList.last_index. run. split_ifs; reflexivity. Qed.

Lemma query_frame c s : is_query c = true -> exec c s = s.
Proof.
  destruct c; cbn; try discriminate; intros _;
    auto using elapsed_frame, remaining_frame, has_active_track_frame,
      get_tracks_frame, next_track_info_frame, is_last_track_frame,
      queue_frame, last_index_frame.
Qed.

(** C10: [is_last_track], [queue], [get_tracks] and [next_track_info],
    and likewise [elapsed], [remaining], [has_active_track], [track],
    [current_index] and [last_index], leave the whole state (list, index,
    current track, pause flag and every track object) as it was, whether
    they return or raise; of the properties only [next_track] changes
    it. *)
Theorem queries_leave_state_unchanged :
  (forall s, after PlayList.is_last_track s = s) /\
  (forall s, after PlayList.queue s = s) /\
  (forall amount from_index s,
     after (PlayList.get_tracks amount from_index) s = s) /\
  (forall jump s, after (PlayList.next_track_info jump) s = s) /\
  (forall now s, after (PlayList.elapsed now) s = s) /\
  (forall now s, after (PlayList.remaining now) s = s) /\
  (forall now now' s, after (PlayList.has_active_track now now') s = s) /\
  (forall s, after PlayList.track s = s) /\
  (forall s, after PlayList.current_index s = s) /\
  (forall s, after PlayList.last_index s = s) /\
  (exists now s,
     track_index (after (PlayList.next_track now) s) <> track_index s /\
     current_track (after (PlayList.next_track now) s) <> current_track s /\
     Track.start (heap (after (PlayList.next_track now) s) 0%nat)
     <> Track.start (heap s 0%nat)).
Proof.
  repeat split;
    auto using elapsed_frame, remaining_frame, has_active_track_frame,
      get_tracks_frame, next_track_info_frame, is_last_track_frame,
      queue_frame, last_index_frame.
  exists 7, example_one. cbn. repeat split; discriminate.
Qed.

(** ** What each mutating method touches *)

Lemma start_effect owner track now s :
  PlayList.start owner track now s =
  (Ret track,
   mkState (track_list s) (track_index s) (Some track) false
     (upd (upd (heap s) track (Track.set_owner owner (heap s track))) track
        (Track.set_start now
           (upd (heap s) track (Track.set_owner owner (heap s track)) track)))).
Proof.
  destruct s as [tl ti cur [|] h]; unfold PlayList.start, PlayList.unpause;
    run; reflexivity.
Qed.

Lemma transport_effect c s :
  transport c = true ->
  track_list (exec c s) = track_list s /\
  track_index (exec c s) = track_index s /\
  current_track (exec c s) = current_track s /\
  (current_track s <> None ->
   is_paused (exec c s) = match c with Pause _ _ => true | _ => false end).
Proof.
  destruct s as [tl ti [cur|] p h]; destruct c; cbn [transport];
    try discriminate; intros _; cbn [exec];
    unfold PlayList.play, PlayList.replay, PlayList.pause, PlayList.stop,
      PlayList.unpause, PlayList.remaining, PlayList.elapsed; run;
    split_ifs; repeat split; try reflexivity; try congruence;
    destruct p; cbn in *; congruence.
Qed.

Lemma add_run owner track s :
  PlayList.add owner track s =
  if truthy (Track.id (heap s track)) then
    (Ret (Some track),
     mkState (track_list s ++ [track]) (track_index s) (current_track s)
       (is_paused s)
       (upd (heap s) track (Track.set_owner owner (heap s track))))
  else (Ret None, s).
Proof.
  unfold PlayList.add. run. destruct (truthy _); reflexivity.
Qed.

Lemma upd_same h r x : upd h r x r = x.
Proof. unfold upd. rewrite Nat.eqb_refl. reflexivity. Qed.

Lemma upd_other h r x r' : r' <> r -> upd h r x r' = h r'.
Proof.
  intros Hne. unfold upd. destruct (Nat.eqb_spec r' r); congruence.
Qed.

Lemma valid_upd_owner h r o : forall t,
  valid (upd h r (Track.set_owner o (h r))) t = valid h t.
Proof.
  intros t. unfold valid, upd. destruct (Nat.eqb_spec t r); subst; reflexivity.
Qed.

Lemma filter_ext_valid h h' (l : list ref) :
  (forall t, valid h' t = valid h t) ->
  List.filter (valid h') l = List.filter (valid h) l.
Proof. intros H. apply List.filter_ext. exact H. Qed.

Lemma for_fold_cons {A B} (body : B -> A -> M B) x l acc s :
  for_fold (x :: l) body acc s =
  match body acc x s with
  | (Ret a, s') => for_fold l body a s'
  | (Raise e, s') => (Raise e, s')
  end.
Proof. reflexivity. Qed.

Lemma add_body_run owner track s :
  (PlayList.add owner track;; ret tt) s =
  if valid (heap s) track then
    (Ret tt,
     mkState (track_list s ++ [track]) (track_index s) (current_track s)
       (is_paused s)
       (upd (heap s) track (Track.set_owner owner (heap s track))))
  else (Ret tt, s).
Proof.
  rewrite bind_run, add_run. unfold valid.
  destruct (truthy _); reflexivity.
Qed.

(** The loop of [add_list]: the tracks with a true [id] are appended in
    order, each with its [owner] set; nothing else changes. *)
Lemma add_list_loop owner tracks : forall s,
  let s' := snd (for_each tracks
                   (fun track => PlayList.add owner track;; ret tt) s) in
  fst (for_each tracks (fun track => PlayList.add owner track;; ret tt) s)
  = Ret tt /\
  track_list s' = track_list s ++ List.filter (valid (heap s)) tracks /\
  track_index s' = track_index s /\
  current_track s' = current_track s /\
  is_paused s' = is_paused s /\
  (forall t, valid (heap s') t = valid (heap s) t) /\
  (forall t, heap s' t =
             if bool_decide (t ∈ List.filter (valid (heap s)) tracks)
             then Track.set_owner owner (heap s t) else heap s t).
Proof.
  unfold for_each.
  induction tracks as [|x tracks IH]; intros s; cbn zeta.
  - cbn. rewrite app_nil_r. repeat split; reflexivity.
  - rewrite for_fold_cons. cbv beta. rewrite add_body_run.
    destruct (valid (heap s) x) eqn:Hx; cbv beta iota;
      cbn [List.filter]; rewrite ?Hx.
    + match goal with
      | |- context [for_fold tracks ?b tt ?s1] =>
          specialize (IH s1); cbn zeta in IH;
          destruct IH as (Hr & Hl & Hi & Hc & Hp & Hv & Hh)
      end.
      cbn [track_list track_index current_track is_paused heap] in *.
      rewrite (filter_ext_valid (heap s)) in Hl, Hh
        by apply valid_upd_owner.
      repeat split; try assumption.
      * rewrite Hl, <- app_assoc. reflexivity.
      * intros t. rewrite Hv. apply valid_upd_owner.
      * intros t. rewrite Hh.
        destruct (Nat.eq_dec t x) as [->|Hne].
        -- rewrite upd_same. rewrite (bool_decide_eq_true_2 (x ∈ x :: _))
             by apply list_elem_of_here.
           destruct (bool_decide _); reflexivity.
        -- rewrite upd_other by assumption.
           rewrite (bool_decide_ext (t ∈ x :: List.filter (valid (heap s)) tracks)
                      (t ∈ List.filter (valid (heap s)) tracks)).
           ++ reflexivity.
           ++ rewrite elem_of_cons. tauto.
    + specialize (IH s). cbn zeta in IH. exact IH.
Qed.

Lemma add_list_run owner tracks s :
  PlayList.add_list owner tracks s =
  for_each tracks (fun track => PlayList.add owner track;; ret tt) s.
Proof.
  unfold PlayList.add_list. destruct tracks as [|x tracks].
  - reflexivity.
  - rewrite len_cons.
    destruct (Z.ltb_spec 0 (len tracks + 1)); [reflexivity|].
    pose proof (len_nonneg tracks). lia.
Qed.

Lemma filter_all_true {A} (f : A -> bool) (l : list A) :
  Forall (fun x => f x = true) l -> List.filter f l = l.
Proof.
  induction 1 as [|x l Hx _ IH]; cbn; [reflexivity|].
  rewrite Hx, IH. reflexivity.
Qed.

(** ** Queue mutation: [add] and [add_list] *)

(** C8: [add] with a false [id] returns [None] and changes nothing; with
    a true [id] it sets the track's [owner], appends the track (length
    plus one) and returns it.  [add_list] appends, in order, exactly the
    tracks with a true [id]; when all [N] have one, the list grows by
    [N]. *)
Theorem add_and_add_list (owner : string) (s : State) :
  (forall track, truthy (Track.id (heap s track)) = false ->
     PlayList.add owner track s = (Ret None, s)) /\
  (forall track, truthy (Track.id (heap s track)) = true ->
     let s' := after (PlayList.add owner track) s in
     result (PlayList.add owner track) s = Ret (Some track) /\
     track_list s' = track_list s ++ [track] /\
     len (track_list s') = len (track_list s) + 1 /\
     heap s' = upd (heap s) track (Track.set_owner owner (heap s track)) /\
     Track.owner (heap s' track) = owner /\
     track_index s' = track_index s /\
     current_track s' = current_track s /\
     is_paused s' = is_paused s) /\
  (forall tracks,
     let s' := after (PlayList.add_list owner tracks) s in
     result (PlayList.add_list owner tracks) s = Ret tt /\
     track_list s' =
       track_list s
       ++ List.filter (fun t => truthy (Track.id (heap s t))) tracks /\
     (Forall (fun t => truthy (Track.id (heap s t)) = true) tracks ->
      track_list s' = track_list s ++ tracks /\
      len (track_list s') = len (track_list s) + len tracks)).
Proof.
  split; [|split].
  - intros track Hid. rewrite add_run, Hid. reflexivity.
  - intros track Hid. unfold after, result. rewrite add_run, Hid. cbn.
    rewrite len_app, upd_same. repeat split; reflexivity.
  - intros tracks. unfold after, result. rewrite add_list_run.
    destruct (add_list_loop owner tracks s) as (Hr & Hl & _).
    split; [exact Hr|]. split; [exact Hl|].
    intros Hall. rewrite Hl. unfold valid.
    rewrite (filter_all_true _ _ Hall), len_app. split; reflexivity.
Qed.

(** ** Serving the next track *)

Lemma py_getitem_in_range {A} (l : list A) (i : Z) :
  0 <= i < len l -> py_getitem l i = l !! Z.to_nat i.
Proof.
  intros [H0 _]. unfold py_getitem.
  destruct (Z.leb_spec 0 i); [reflexivity | lia].
Qed.

Lemma py_getitem_at_len {A} (l : list A) : py_getitem l (len l) = None.
Proof.
  unfold py_getitem. pose proof (len_nonneg l).
  destruct (Z.leb_spec 0 (len l)); [|lia].
  apply lookup_ge_None. unfold len. lia.
Qed.

Lemma lookup_in_range {A} (l : list A) (i : Z) :
  0 <= i < len l -> exists x, l !! Z.to_nat i = Some x.
Proof.
  intros [H0 H1]. apply lookup_lt_is_Some. unfold len in H1. lia.
Qed.

(** What [next_track] does to the state: nothing, or it serves an entry. *)
Lemma next_track_effect now s :
  let s' := after (PlayList.next_track now) s in
  s' = s \/
  (exists x, py_getitem (track_list s) (track_index s) = Some x /\
             s' = mkState (track_list s) (track_index s + 1) (Some x)
                    (is_paused s)
                    (upd (heap s) x (Track.set_start now (heap s x)))).
Proof.
  destruct s as [tl ti cur p h]. unfold PlayList.next_track. run.
  destruct (0 <? len tl); [|left; reflexivity].
  destruct (ti <=? len tl); [|left; reflexivity].
  destruct (py_getitem tl ti) as [x|]; cbn; [|left; reflexivity].
  right. exists x. split; reflexivity.
Qed.

(** X1: In range, [next_track] serves [track_list[track_index]]: it becomes
    the current track, its [start] is set to the clock value, the index
    moves on by one, and it is returned. *)
Lemma next_track_in_range now s :
  0 <= track_index s < len (track_list s) ->
  exists x, track_list s !! Z.to_nat (track_index s) = Some x /\
    PlayList.next_track now s =
    (Ret (Some x),
     mkState (track_list s) (track_index s + 1) (Some x) (is_paused s)
       (upd (heap s) x (Track.set_start now (heap s x)))).
Proof.
  intros Hr. destruct (lookup_in_range _ _ Hr) as [x Hx]. exists x.
  split; [exact Hx|].
  pose proof (py_getitem_in_range _ _ Hr) as Hg. rewrite Hx in Hg.
  destruct s as [tl ti cur p h]. cbn in *.
  unfold PlayList.next_track. run.
  destruct (Z.ltb_spec 0 (len tl)); [|lia].
  destruct (Z.leb_spec ti (len tl)); [|lia].
  rewrite Hg. reflexivity.
Qed.

(** With an empty list [next_track] returns [None] and changes nothing. *)
Lemma next_track_empty now s :
  track_list s = [] -> PlayList.next_track now s = (Ret None, s).
Proof.
  intros He. unfold PlayList.next_track. run. rewrite He. reflexivity.
Qed.

(** At the end of a non-empty list the guard [track_index <= len] lets
    the fetch through, and the fetch raises. *)
Lemma next_track_at_end now s :
  track_list s <> [] -> track_index s = len (track_list s) ->
  PlayList.next_track now s = (Raise IndexError, s).
Proof.
  intros Hne He. unfold PlayList.next_track. run.
  rewrite He, py_getitem_at_len, Z.leb_refl.
  destruct (track_list s) as [|x l] eqn:El; [congruence|].
  rewrite len_cons. pose proof (len_nonneg l).
  destruct (Z.ltb_spec 0 (len l + 1)); [reflexivity | lia].
Qed.

(** C1 (the code against the claim): after one track is added and
    served, the index equals the length, the guard of [next_track] holds,
    and the fetch raises IndexError instead of being in bounds or
    yielding [None]; the state is left as it was. *)
Theorem next_track_raises_at_end :
  reachable example_served /\
  track_list example_served = [0%nat] /\
  track_index example_served = 1 /\
  (track_index example_served <=? len (track_list example_served)) = true /\
  PlayList.next_track 9 example_served = (Raise IndexError, example_served).
Proof.
  split; [|split; [|split; [|split]]]; try reflexivity.
  unfold example_served, example_one. repeat constructor.
Qed.

(** C5 (the code against the claim): with a negative [jump]
    [next_track_info] checks no lower bound; on an empty list it raises
    IndexError, and on a list of one it returns the entry found by
    counting from the end, with the negative index, instead of [None]. *)
Theorem next_track_info_negative_jump :
  result (PlayList.next_track_info (-1)) (PlayList.init example_heap)
  = Raise IndexError /\
  result (PlayList.next_track_info (-1)) example_one
  = Ret (Some (-1, 0%nat)) /\
  result (PlayList.next_track_info (-3)) example_one = Raise IndexError.
Proof. repeat split; reflexivity. Qed.

(** X2: In bounds, and past the end, [next_track_info] does what is
    documented. *)
Lemma next_track_info_nonnegative jump s :
  0 <= track_index s + jump ->
  result (PlayList.next_track_info jump) s =
  Ret (if track_index s + jump <? len (track_list s)
       then option_map (fun x => (track_index s + jump, x))
              (track_list s !! Z.to_nat (track_index s + jump))
       else None) /\
  (track_index s + jump < len (track_list s) ->
   exists x, track_list s !! Z.to_nat (track_index s + jump) = Some x).
Proof.
  intros H0. split.
  - unfold PlayList.next_track_info. run.
    destruct (Z.eqb_spec jump 0) as [->|Hj]; cbn.
    + rewrite Z.add_0_r in *.
      destruct (Z.ltb_spec (track_index s) (len (track_list s))); cbn;
        [|reflexivity].
      rewrite py_getitem_in_range by lia.
      destruct (lookup_in_range (track_list s) (track_index s)) as [x ->];
        [lia | reflexivity].
    + destruct (Z.ltb_spec (track_index s + jump) (len (track_list s))); cbn;
        [|reflexivity].
      rewrite py_getitem_in_range by lia.
      destruct (lookup_in_range (track_list s) (track_index s + jump))
        as [x ->]; [lia | reflexivity].
  - intros Hlt. apply lookup_in_range. lia.
Qed.

(** ** Deleting entries *)

Lemma with_track_list_same s : with_track_list (track_list s) s = s.
Proof. destruct s; reflexivity. Qed.

Lemma py_delitem_in_range {A} (l : list A) (i : Z) :
  0 <= i < len l -> py_delitem l i = Some (delete (Z.to_nat i) l).
Proof.
  intros [H0 H1]. unfold py_delitem.
  destruct (Z.leb_spec 0 i); [|lia].
  destruct (Z.ltb_spec i (len l)); [reflexivity | lia].
Qed.

Lemma len_delete {A} (l : list A) (i : Z) :
  0 <= i < len l -> len (delete (Z.to_nat i) l) = len l - 1.
Proof.
  intros [H0 H1]. unfold len in *. rewrite length_delete.
  - lia.
  - apply lookup_lt_is_Some. lia.
Qed.

Lemma qualifies_spec s i :
  qualifies s i = true <-> track_index s <= i < len (track_list s).
Proof.
  unfold qualifies. rewrite andb_true_iff, Z.leb_le, Z.ltb_lt. tauto.
Qed.

(** One turn of the loop of [delete], in a state whose index is not
    negative. *)
Lemma delete_step_run acc i s :
  0 <= track_index s ->
  PlayList.delete_step acc i s =
  if qualifies s i then
    (Ret (acc ++ [py_str i]),
     with_track_list (delete (Z.to_nat i) (track_list s)) s)
  else (Ret acc, s).
Proof.
  intros H0. unfold PlayList.delete_step. run. fold (qualifies s i).
  destruct (qualifies s i) eqn:Hq; [|reflexivity].
  apply qualifies_spec in Hq.
  rewrite py_delitem_in_range by lia. reflexivity.
Qed.

Lemma delete_step_keeps acc i s s0 :
  same_but_list s0 s -> same_but_list s0 (snd (PlayList.delete_step acc i s)).
Proof.
  unfold same_but_list. destruct s as [tl ti cur p h].
  unfold PlayList.delete_step. run. split_ifs; auto.
Qed.

Lemma for_fold_inv {A B} (P : State -> Prop) (body : B -> A -> M B) l :
  (forall acc x s, P s -> P (snd (body acc x s))) ->
  forall acc s, P s -> P (snd (for_fold l body acc s)).
Proof.
  intros Hbody. induction l as [|x l IH]; intros acc s Hs; cbn.
  - exact Hs.
  - unfold bind. specialize (Hbody acc x s Hs).
    destruct (body acc x s) as [[acc'|e] s']; cbn in *.
    + apply IH. exact Hbody.
    + exact Hbody.
Qed.

Lemma delete_step_cursor_inv acc i s :
  cursor_inv s -> cursor_inv (snd (PlayList.delete_step acc i s)).
Proof.
  unfold cursor_inv. intros Hinv. rewrite delete_step_run by lia.
  destruct (qualifies s i) eqn:Hq; [|exact Hinv].
  apply qualifies_spec in Hq. cbn. rewrite len_delete by lia. lia.
Qed.

(** What follows the loop in [delete] builds the result and assigns
    nothing. *)
Lemma delete_after_loop indexes by_range s :
  after (PlayList.delete indexes by_range) s =
  snd (for_fold (sorted_reverse indexes) PlayList.delete_step [] s).
Proof.
  unfold PlayList.delete, after. rewrite bind_run. cbn [get fst snd].
  rewrite bind_run.
  destruct (for_fold (sorted_reverse indexes) PlayList.delete_step [] s)
    as [[acc|e] s']; [|reflexivity].
  run. split_ifs; reflexivity.
Qed.

Lemma delete_keeps indexes by_range s :
  same_but_list s (after (PlayList.delete indexes by_range) s).
Proof.
  rewrite delete_after_loop.
  apply for_fold_inv with (P := same_but_list s).
  - intros acc x s1. apply delete_step_keeps.
  - repeat split.
Qed.

Lemma delete_cursor_inv indexes by_range s :
  cursor_inv s -> cursor_inv (after (PlayList.delete indexes by_range) s).
Proof.
  rewrite delete_after_loop. apply for_fold_inv.
  intros acc x s1. apply delete_step_cursor_inv.
Qed.

Lemma clear_run s :
  PlayList.clear s =
  if 0 <? len (track_list s) then
    (Ret true, mkState [] 0 (current_track s) (is_paused s) (heap s))
  else (Ret false, s).
Proof. unfold PlayList.clear. run. destruct (0 <? _); reflexivity. Qed.

(** ** The index stays within the list *)

Lemma add_list_effect owner tracks s :
  let s' := after (PlayList.add_list owner tracks) s in
  track_list s' = track_list s ++ List.filter (valid (heap s)) tracks /\
  track_index s' = track_index s /\
  current_track s' = current_track s /\
  is_paused s' = is_paused s.
Proof.
  cbn zeta. unfold after. rewrite add_list_run.
  destruct (add_list_loop owner tracks s) as (_ & Hl & Hi & Hc & Hp & _).
  auto.
Qed.

Lemma add_effect owner track s :
  let s' := after (PlayList.add owner track) s in
  (track_list s' = track_list s \/ track_list s' = track_list s ++ [track]) /\
  track_index s' = track_index s /\
  current_track s' = current_track s /\
  is_paused s' = is_paused s.
Proof.
  cbn zeta. unfold after. rewrite add_run.
  destruct (truthy _); cbn; auto.
Qed.

Lemma exec_cursor_inv c s : cursor_inv s -> cursor_inv (exec c s).
Proof.
  intros Hinv.
  destruct (is_query c) eqn:Hq; [rewrite query_frame by exact Hq; exact Hinv|].
  destruct (transport c) eqn:Ht.
  { destruct (transport_effect c s Ht) as (Hl & Hi & _).
    unfold cursor_inv. rewrite Hl, Hi. exact Hinv. }
  destruct c; try discriminate; cbn [exec].
  - destruct (next_track_effect now s) as [->|(x & Hx & ->)]; [exact Hinv|].
    unfold cursor_inv in *. cbn.
    destruct (Z.eq_dec (track_index s) (len (track_list s))) as [He|Hne].
    + rewrite He, py_getitem_at_len in Hx. discriminate.
    + lia.
  - unfold after. rewrite start_effect. exact Hinv.
  - destruct (add_effect owner track s) as ([Hl|Hl] & Hi & _);
      unfold cursor_inv in *; rewrite Hl, Hi, ?len_app; [lia|].
    change (len [track]) with 1. lia.
  - destruct (add_list_effect owner tracks s) as (Hl & Hi & _).
    unfold cursor_inv in *. rewrite Hl, Hi, len_app.
    pose proof (len_nonneg (List.filter (valid (heap s)) tracks)). lia.
  - unfold after. rewrite clear_run. unfold cursor_inv in *.
    destruct (0 <? len (track_list s)); [|exact Hinv].
    cbn [snd track_list track_index]. change (len (@nil ref)) with 0. lia.
  - apply delete_cursor_inv. exact Hinv.
Qed.

Lemma reachable_cursor_inv s : reachable s -> cursor_inv s.
Proof.
  induction 1 as [h|s c _ IH].
  - unfold cursor_inv, len. cbn. lia.
  - apply exec_cursor_inv. exact IH.
Qed.

Lemma exec_cursor_monotone c s :
  c <> Clear -> track_index s <= track_index (exec c s).
Proof.
  intros Hc.
  destruct (is_query c) eqn:Hq; [rewrite query_frame by exact Hq; lia|].
  destruct (transport c) eqn:Ht.
  { destruct (transport_effect c s Ht) as (_ & Hi & _). rewrite Hi. lia. }
  destruct c; try discriminate; try congruence; cbn [exec].
  - destruct (next_track_effect now s) as [->|(x & Hx & ->)]; cbn; lia.
  - unfold after. rewrite start_effect. cbn. lia.
  - destruct (add_effect owner track s) as (_ & Hi & _). rewrite Hi. lia.
  - destruct (add_list_effect owner tracks s) as (_ & Hi & _). rewrite Hi. lia.
  - destruct (delete_keeps indexes by_range s) as (Hi & _). rewrite Hi. lia.
Qed.

(** C6: in every reachable state [0 <= track_index <= len(track_list)];
    every call keeps it so; and no call other than [clear] lowers
    [track_index]. *)
Theorem cursor_within_list :
  (forall s, reachable s -> cursor_inv s) /\
  (forall c s, cursor_inv s -> cursor_inv (exec c s)) /\
  (forall c s, c <> Clear -> track_index s <= track_index (exec c s)).
Proof.
  split; [|split].
  - exact reachable_cursor_inv.
  - exact exec_cursor_inv.
  - exact exec_cursor_monotone.
Qed.

(** ** Queue mutation: [clear] *)

(** C3: in a reachable state [clear] returns [True] exactly when the list
    was not empty, and afterwards the list is empty and the index is 0. *)
Theorem clear_resets (s : State) :
  reachable s ->
  (exists b, result PlayList.clear s = Ret b /\
             (b = true <-> track_list s <> [])) /\
  track_list (after PlayList.clear s) = [] /\
  track_index (after PlayList.clear s) = 0.
Proof.
  intros Hr. apply reachable_cursor_inv in Hr. unfold cursor_inv in Hr.
  unfold result, after. rewrite clear_run.
  destruct (track_list s) as [|x l] eqn:El.
  - rewrite (@len_nil ref) in *. cbn. split; [|split].
    + exists false. split; [reflexivity|]. split; [discriminate | congruence].
    + exact El.
    + lia.
  - rewrite len_cons. pose proof (len_nonneg l).
    destruct (Z.ltb_spec 0 (len l + 1)); [|lia]. cbn. split; [|split].
    + exists true. split; [reflexivity|]. split; [discriminate | reflexivity].
    + reflexivity.
    + reflexivity.
Qed.

Lemma clear_resets_witness :
  reachable example_three /\
  (exists b, result PlayList.clear example_three = Ret b /\
             (b = true <-> track_list example_three <> [])) /\
  track_list (after PlayList.clear example_three) = [] /\
  track_index (after PlayList.clear example_three) = 0.
Proof.
  assert (reachable example_three) as Hr
    by (unfold example_three; repeat constructor).
  split; [exact Hr | exact (clear_resets example_three Hr)].
Defined.

(** ** A paused object has a current track *)

Lemma exec_pause_inv c s : guarded s c -> pause_inv s -> pause_inv (exec c s).
Proof.
  intros Hg Hinv.
  destruct (is_query c) eqn:Hq; [rewrite query_frame by exact Hq; exact Hinv|].
  destruct (transport c) eqn:Ht.
  { destruct (transport_effect c s Ht) as (_ & _ & Hc & _).
    unfold pause_inv. rewrite Hc. intros _. exact (Hg Ht). }
  unfold pause_inv in *.
  destruct c; try discriminate; cbn [exec].
  - destruct (next_track_effect now s) as [->|(x & Hx & ->)];
      [exact Hinv | cbn; discriminate].
  - unfold after. rewrite start_effect. cbn. discriminate.
  - destruct (add_effect owner track s) as (_ & _ & Hc & Hp).
    rewrite Hc, Hp. exact Hinv.
  - destruct (add_list_effect owner tracks s) as (_ & _ & Hc & Hp).
    rewrite Hc, Hp. exact Hinv.
  - unfold after. rewrite clear_run.
    destruct (0 <? len (track_list s)); cbn; exact Hinv.
  - destruct (delete_keeps indexes by_range s) as (_ & Hc & Hp & _).
    rewrite Hc, Hp. exact Hinv.
Qed.

(** C9: in every state reached by calls in which [play], [replay],
    [pause] and [stop] are made only when there is a current track,
    [is_paused] implies that [current_track] is not [None]; every such
    call keeps it so. *)
Theorem paused_has_current :
  (forall s, reachable_guarded s -> pause_inv s) /\
  (forall c s, guarded s c -> pause_inv s -> pause_inv (exec c s)).
Proof.
  split.
  - induction 1 as [h|s c _ IH Hg].
    + unfold pause_inv. cbn. discriminate.
    + apply exec_pause_inv; assumption.
  - exact exec_pause_inv.
Qed.

(** The caller's check is needed: [pause] on a fresh object sets the flag
    and then raises, leaving a paused object with no current track. *)
Lemma pause_without_current :
  PlayList.pause 0 3 (PlayList.init example_heap)
  = (Raise AttributeError,
     mkState [] 0 None true example_heap).
Proof. reflexivity. Qed.

(** Under the invariant, a true [has_active_track] is a sufficient check
    by the caller. *)
Lemma has_active_track_current now now' s :
  pause_inv s ->
  result (PlayList.has_active_track now now') s = Ret true ->
  current_track s <> None.
Proof.
  unfold pause_inv. destruct s as [tl ti [c|] p h]; [discriminate|].
  destruct p; cbn; [intros H _; exact (H eq_refl)|].
  intros _. cbv. discriminate.
Qed.

(** ** [delete] removes the qualifying positions *)

Lemma remove_positions_below {A} q k (l : list A) :
  (forall j, j ∈ q -> j < k) -> remove_positions q k l = l.
Proof.
  revert k. induction l as [|x l IH]; intros k Hq; cbn; [reflexivity|].
  rewrite bool_decide_eq_false_2.
  - f_equal. apply IH. intros j Hj. specialize (Hq j Hj). lia.
  - intros Hk. specialize (Hq k Hk). lia.
Qed.

Lemma remove_positions_ext {A} q q' k (l : list A) :
  (forall j, j ∈ q <-> j ∈ q') ->
  remove_positions q k l = remove_positions q' k l.
Proof.
  intros Hq. revert k. induction l as [|x l IH]; intros k; cbn; [reflexivity|].
  rewrite (bool_decide_ext _ _ (Hq k)), !IH. reflexivity.
Qed.

Lemma remove_positions_nil {A} k (l : list A) : remove_positions [] k l = l.
Proof.
  apply remove_positions_below. intros j Hj. apply elem_of_nil in Hj. tauto.
Qed.

(** Deleting position [i] first and then the positions below it is the
    same as removing all of them at once. *)
Lemma remove_positions_delete {A} Q i :
  (forall j, j ∈ Q -> j < i) ->
  forall (l : list A) k,
    k <= i < k + len l ->
    remove_positions Q k (delete (Z.to_nat (i - k)) l)
    = remove_positions (i :: Q) k l.
Proof.
  intros HQ. induction l as [|x l IH]; intros k Hk.
  - rewrite (@len_nil A) in Hk. lia.
  - rewrite len_cons in Hk. destruct (Z.eq_dec i k) as [->|Hne].
    + rewrite Z.sub_diag. cbn [Z.to_nat delete list_delete remove_positions].
      rewrite bool_decide_eq_true_2 by apply list_elem_of_here.
      rewrite remove_positions_below by exact HQ.
      rewrite remove_positions_below; [reflexivity|].
      intros j Hj. apply elem_of_cons in Hj as [->|Hj]; [lia|].
      specialize (HQ j Hj). lia.
    + replace (Z.to_nat (i - k)) with (S (Z.to_nat (i - (k + 1)))) by lia.
      cbn [delete list_delete remove_positions].
      rewrite (bool_decide_ext (k ∈ i :: Q) (k ∈ Q)).
      * rewrite IH by lia. reflexivity.
      * rewrite elem_of_cons. intuition congruence.
Qed.

(** Positions below every removed one keep their entries. *)
Lemma remove_positions_take {A} q c :
  (forall j, j ∈ q -> c <= j) ->
  forall (l : list A) k,
    take (Z.to_nat (c - k)) (remove_positions q k l)
    = take (Z.to_nat (c - k)) l.
Proof.
  intros Hq. induction l as [|x l IH]; intros k; cbn; [reflexivity|].
  destruct (Z_le_gt_dec c k) as [Hle|Hgt].
  - replace (Z.to_nat (c - k)) with 0%nat by lia. reflexivity.
  - rewrite bool_decide_eq_false_2.
    + replace (Z.to_nat (c - k)) with (S (Z.to_nat (c - (k + 1)))) by lia.
      cbn. rewrite IH. reflexivity.
    + intros Hk. specialize (Hq k Hk). lia.
Qed.

Lemma filter_qualifies_below s s' i (L : list Z) :
  Forall (fun j => j < i) L ->
  track_index s' = track_index s ->
  i < len (track_list s) -> len (track_list s') = len (track_list s) - 1 ->
  List.filter (qualifies s') L = List.filter (qualifies s) L.
Proof.
  intros HL Hi Hlt Hlen. apply List.filter_ext_in. intros j Hj.
  rewrite Forall_forall in HL. apply list_elem_of_In in Hj.
  specialize (HL j Hj). unfold qualifies. rewrite Hi, Hlen.
  destruct (Z.ltb_spec j (len (track_list s) - 1));
    destruct (Z.ltb_spec j (len (track_list s))); try reflexivity; lia.
Qed.

(** The loop of [delete] over strictly descending indexes. *)
Lemma delete_loop (L : list Z) :
  StronglySorted (fun a b => b < a) L ->
  forall s acc, 0 <= track_index s ->
    for_fold L PlayList.delete_step acc s =
    (Ret (acc ++ map py_str (List.filter (qualifies s) L)),
     with_track_list
       (remove_positions (List.filter (qualifies s) L) 0 (track_list s)) s).
Proof.
  induction 1 as [|i L HS IH HL]; intros s acc H0.
  - cbn [for_fold List.filter map].
    rewrite remove_positions_nil, app_nil_r, with_track_list_same.
    reflexivity.
  - rewrite for_fold_cons, delete_step_run by exact H0.
    cbn [List.filter]. destruct (qualifies s i) eqn:Hq.
    + apply qualifies_spec in Hq.
      rewrite IH by exact H0.
      rewrite (filter_qualifies_below s _ i L HL); cbn [track_list track_index];
        [|reflexivity|lia|apply len_delete; lia].
      rewrite <- app_assoc. cbn [map app]. f_equal.
      unfold with_track_list. cbn. f_equal.
      rewrite <- (Z.sub_0_r i) at 1. apply remove_positions_delete.
      * intros j Hj. apply list_elem_of_In, filter_In in Hj as [Hj _].
        rewrite Forall_forall in HL. apply HL, list_elem_of_In, Hj.
      * lia.
    + apply IH. exact H0.
Qed.

#[local] Instance Zge_dec_rel_trans : Transitive Zge_dec_rel.
Proof. unfold Zge_dec_rel. intros x y z. lia. Qed.

#[local] Instance Zge_dec_rel_total : Total Zge_dec_rel.
Proof. unfold Zge_dec_rel. intros x y. lia. Qed.

Lemma strongly_sorted_strict (l : list Z) :
  StronglySorted Zge_dec_rel l -> NoDup l ->
  StronglySorted (fun a b => b < a) l.
Proof.
  induction 1 as [|x l HS IH Hx]; intros Hnd; constructor.
  - apply IH. apply NoDup_cons in Hnd. tauto.
  - apply NoDup_cons in Hnd as [Hnin _].
    rewrite Forall_forall in *. intros y Hy. specialize (Hx y Hy).
    unfold Zge_dec_rel in Hx.
    assert (y <> x) by (intros ->; contradiction). lia.
Qed.

Lemma sorted_reverse_strict indexes :
  NoDup indexes -> StronglySorted (fun a b => b < a) (sorted_reverse indexes).
Proof.
  intros Hnd. apply strongly_sorted_strict.
  - apply StronglySorted_merge_sort; apply _.
  - unfold sorted_reverse. rewrite merge_sort_Permutation. exact Hnd.
Qed.

Lemma strongly_sorted_filter {A} (R : relation A) (f : A -> bool) l :
  StronglySorted R l -> StronglySorted R (List.filter f l).
Proof.
  induction 1 as [|x l HS IH Hx]; cbn; [constructor|].
  destruct (f x); [|exact IH]. constructor; [exact IH|].
  rewrite Forall_forall in *. intros y Hy.
  apply list_elem_of_In, filter_In in Hy as [Hy _].
  apply Hx, list_elem_of_In, Hy.
Qed.

Lemma map_reverse {A B} (f : A -> B) l : reverse (map f l) = map f (reverse l).
Proof. unfold reverse. rewrite <- !rev_alt. symmetry. apply map_rev. Qed.

Lemma py_int_str i : py_int (py_str i) = Some i.
Proof.
  unfold py_int, py_str. rewrite NilZero.isi.
  - cbn. rewrite DecimalZ.of_to. reflexivity.
  - destruct i; cbn; try discriminate.
    intros [= H]. exact (Unsigned.to_uint_nonnil _ H).
  - destruct i; cbn; try discriminate.
    intros [= H]. exact (Unsigned.to_uint_nonnil _ H).
Qed.

Lemma py_getitem_head {A} (l : list A) : py_getitem l 0 = head l.
Proof. unfold py_getitem. cbn. symmetry. apply head_lookup. Qed.

Lemma py_getitem_last {A} (l : list A) : py_getitem l (-1) = last l.
Proof.
  unfold py_getitem. cbn [Z.leb Z.compare]. rewrite last_lookup.
  destruct l as [|x l]; [reflexivity|].
  rewrite len_cons. pose proof (len_nonneg l).
  destruct (Z.leb_spec 0 (len l + 1 + -1)); [|lia].
  f_equal. unfold len. cbn [length]. lia.
Qed.

Lemma last_map {A B} (f : A -> B) (l : list A) :
  last (map f l) = option_map f (last l).
Proof.
  induction l as [|x [|y l] IH]; [reflexivity | reflexivity |].
  cbn [map] in *. rewrite !last_cons_cons. exact IH.
Qed.

Lemma bind_lift_some {A B} e (a : A) (k : A -> M B) s :
  bind (lift e (Some a)) k s = k a s.
Proof. reflexivity. Qed.

Lemma delete_loop_run indexes s :
  0 <= track_index s -> NoDup indexes ->
  for_fold (sorted_reverse indexes) PlayList.delete_step [] s =
  (Ret (map py_str (List.filter (qualifies s) (sorted_reverse indexes))),
   with_track_list
     (remove_positions (List.filter (qualifies s) (sorted_reverse indexes)) 0
        (track_list s)) s).
Proof.
  intros H0 Hnd. rewrite delete_loop by auto using sorted_reverse_strict.
  reflexivity.
Qed.

(** C2 (as amended): in a state whose index is not negative, and for a
    list of pairwise distinct indexes, [delete] goes through the indexes
    in descending order and removes exactly the entries at the given
    positions [i] with [track_index <= i < len(track_list)], so none
    below [track_index]; it assigns nothing else.  With [q] those
    positions in ascending order: it returns [None] when [q] is empty;
    otherwise the result has [deleted_indexes] the strings of [q],
    [deleted_indexes_len] their count, [from] and [to] the first and last
    of [q] when [by_range], and, when not [by_range] and [q] is a single
    position, [track_title] the title of the entry that was there. *)
Theorem delete_removes_qualifying
  (s : State) (indexes : list Z) (by_range : bool) :
  0 <= track_index s -> NoDup indexes ->
  exists q : list Z,
    Sorted Z.lt q /\
    (forall i, i ∈ q <->
               i ∈ indexes /\ track_index s <= i < len (track_list s)) /\
    Sorted (fun a b => b <= a) (sorted_reverse indexes) /\
    sorted_reverse indexes ≡ₚ indexes /\
    let s' := after (PlayList.delete indexes by_range) s in
    track_list s' = remove_positions q 0 (track_list s) /\
    take (Z.to_nat (track_index s)) (track_list s')
    = take (Z.to_nat (track_index s)) (track_list s) /\
    same_but_list s s' /\
    (q = [] -> result (PlayList.delete indexes by_range) s = Ret None) /\
    (q <> [] ->
     exists d lo hi,
       result (PlayList.delete indexes by_range) s = Ret (Some d) /\
       head q = Some lo /\ last q = Some hi /\
       d !! "deleted_indexes" = Some (VList (map py_str q)) /\
       d !! "deleted_indexes_len" = Some (VInt (len q)) /\
       (by_range = true ->
        d !! "from" = Some (VStr (py_str lo)) /\
        d !! "to" = Some (VStr (py_str hi))) /\
       (by_range = false -> forall i, q = [i] ->
        exists r, track_list s !! Z.to_nat i = Some r /\
                  d !! "track_title" = Some (VStr (Track.title (heap s r))))).
Proof.
  intros H0 Hnd.
  set (Qd := List.filter (qualifies s) (sorted_reverse indexes)).
  assert (Hmem : forall i, i ∈ reverse Qd <->
            i ∈ indexes /\ track_index s <= i < len (track_list s)).
  { intros i. rewrite elem_of_reverse. unfold Qd.
    rewrite list_elem_of_In, filter_In, qualifies_spec, <- list_elem_of_In.
    unfold sorted_reverse. rewrite merge_sort_Permutation. tauto. }
  exists (reverse Qd).
  split.
  { apply (Sorted_reverse (fun a b => b < a)).
    apply StronglySorted_Sorted, strongly_sorted_filter, sorted_reverse_strict.
    exact Hnd. }
  split; [exact Hmem|].
  split; [apply (Sorted_merge_sort Zge_dec_rel)|].
  split; [apply merge_sort_Permutation|].
  cbn zeta.
  pose proof (delete_loop_run indexes s H0 Hnd) as Hrun. fold Qd in Hrun.
  assert (Hlist : track_list (after (PlayList.delete indexes by_range) s)
                  = remove_positions (reverse Qd) 0 (track_list s)).
  { rewrite delete_after_loop, Hrun. cbn [snd with_track_list track_list].
    apply remove_positions_ext. intros j. rewrite elem_of_reverse. tauto. }
  split; [exact Hlist|].
  split.
  { rewrite Hlist. rewrite <- (Z.sub_0_r (track_index s)).
    apply remove_positions_take. intros j Hj. apply Hmem in Hj. lia. }
  split; [apply delete_keeps|].
  unfold result, PlayList.delete. rewrite bind_run. cbn [get]. cbv beta iota.
  rewrite bind_run, Hrun. cbv beta iota zeta. rewrite map_reverse.
  assert (Hh : forall r, heap (with_track_list
             (remove_positions Qd 0 (track_list s)) s) r = heap s r)
    by reflexivity.
  set (s1 := with_track_list (remove_positions Qd 0 (track_list s)) s) in *.
  clearbody s1.
  remember (reverse Qd) as q eqn:Eq. clear Eq Hrun Hlist.
  destruct q as [|lo q'].
  { split; [intros _; reflexivity | congruence]. }
  split; [discriminate|]. intros _.
  destruct (last (lo :: q')) as [hi|] eqn:Hlast;
    [|apply last_None in Hlast; discriminate].
  assert (Hlen : len (map py_str (lo :: q')) = len q' + 1)
    by (unfold len; cbn [map length]; rewrite length_map; lia).
  pose proof (len_nonneg q') as Hq'.
  rewrite Hlen. destruct (Z.ltb_spec 0 (len q' + 1)); [|lia].
  rewrite bind_run.
  assert (Hlo : track_index s <= lo < len (track_list s)).
  { apply Hmem, list_elem_of_here. }
  exists (<["deleted_indexes_len" := VInt (len q' + 1)]>
            (<["deleted_indexes" := VList (map py_str (lo :: q'))]>
               (if by_range
                then <["to" := VStr (py_str hi)]>
                       (<["from" := VStr (py_str lo)]> ∅)
                else if len q' + 1 =? 1
                     then match track_list s !! Z.to_nat lo with
                          | Some r =>
                              <["track_title" :=
                                  VStr (Track.title (heap s r))]> ∅
                          | None => ∅
                          end
                     else ∅))), lo, hi.
  rewrite len_cons.
  split; [|split; [reflexivity|split; [reflexivity|]]].
  - destruct by_range.
    + rewrite py_getitem_head, py_getitem_last, last_map, Hlast.
      reflexivity.
    + destruct (len q' + 1 =? 1); [|reflexivity].
      rewrite py_getitem_head. cbn [map head].
      rewrite bind_lift_some. cbv beta.
      rewrite py_int_str, bind_lift_some. cbv beta.
      rewrite py_getitem_in_range by lia.
      destruct (lookup_in_range (track_list s) lo) as [r Hr]; [lia|].
      rewrite Hr, bind_lift_some. cbv beta.
      unfold getattr, bind, ret. cbn [fst]. rewrite Hh. reflexivity.
  - split; [|split; [|split]].
    + by simplify_map_eq.
    + by simplify_map_eq.
    + intros ->. split; by simplify_map_eq.
    + intros -> i [= <- ->]. cbn.
      destruct (lookup_in_range (track_list s) lo) as [r Hr]; [lia|].
      exists r. rewrite Hr. split; [reflexivity|]. by simplify_map_eq.
Qed.

Lemma delete_removes_qualifying_witness :
  0 <= track_index example_three /\
  NoDup [0; 2] /\
  exists q : list Z,
    Sorted Z.lt q /\
    (forall i, i ∈ q <->
               i ∈ [0; 2] /\
               track_index example_three <= i
               < len (track_list example_three)) /\
    track_list (after (PlayList.delete [0; 2] false) example_three)
    = remove_positions q 0 (track_list example_three).
Proof.
  assert (0 <= track_index example_three) as H0
    by (vm_compute; discriminate).
  assert (NoDup [0; 2]) as Hnd 
    by (apply (bool_decide_unpack (NoDup [0; 2])); vm_compute; exact I).
  split; [exact H0|]. split; [exact Hnd|].
  destruct (delete_removes_qualifying example_three [0; 2] false H0 Hnd)
    as (q & Hs & Hm & _ & _ & Hl & _).
  exists q. split; [exact Hs|]. split; [exact Hm | exact Hl].
Defined.

(** C2, as stated, fails on a list that repeats an index: of three
    entries with [track_index = 0], [delete([0, 0])] removes the entries
    at positions 0 and 1, though 1 is not among the given indexes, and
    reports index 0 twice.  It also fails in a state with a negative
    index, which no call produces: there a negative index passes the
    test and [del] counts it from the end, or raises. *)
Lemma delete_repeated_index_removes_neighbour :
  (track_list example_three = [0; 1; 2]%nat /\
   track_index example_three = 0 /\
   track_list (after (PlayList.delete [0; 0] false) example_three)
   = [2%nat] /\
   exists d,
     result (PlayList.delete [0; 0] false) example_three = Ret (Some d) /\
     d !! "deleted_indexes" = Some (VList ["0"; "0"]) /\
     d !! "deleted_indexes_len" = Some (VInt 2)) /\
  result (PlayList.delete [-1] false)
    (mkState [] (-1) None false example_heap)
  = Raise IndexError.
Proof.
  split; [|reflexivity].
  split; [reflexivity|]. split; [reflexivity|]. split; [reflexivity|].
  eexists. split; [reflexivity|]. split; vm_compute; reflexivity.
Qed.

(** The scenario of the specification: three tracks, [delete({0, 2})]
    before anything is served. *)
Lemma delete_scenario :
  track_list (after (PlayList.delete [0; 2] false) example_three) = [1%nat] /\
  exists d,
    result (PlayList.delete [0; 2] false) example_three = Ret (Some d) /\
    d !! "deleted_indexes" = Some (VList ["0"; "2"]) /\
    d !! "deleted_indexes_len" = Some (VInt 2) /\
    d !! "track_title" = None.
Proof.
  split; [reflexivity|].
  eexists. split; [reflexivity|]. repeat split; vm_compute; reflexivity.
Qed.

Lemma next_track_in_range_witness :
  0 <= track_index example_one < len (track_list example_one) /\
  exists x,
    track_list example_one !! Z.to_nat (track_index example_one) = Some x /\
    PlayList.next_track 7 example_one =
    (Ret (Some x),
     mkState (track_list example_one) (track_index example_one + 1) (Some x)
       (is_paused example_one)
       (upd (heap example_one) x
          (Track.set_start 7 (heap example_one x)))).
Proof.
  assert (0 <= track_index example_one < len (track_list example_one)) as Hr
    by (vm_compute; split; [discriminate | reflexivity]).
  split; [exact Hr | exact (next_track_in_range 7 example_one Hr)].
Defined.

Lemma next_track_info_nonnegative_witness :
  0 <= track_index example_three + 2 /\
  result (PlayList.next_track_info 2) example_three =
  Ret (if track_index example_three + 2 <? len (track_list example_three)
       then option_map (fun x => (track_index example_three + 2, x))
              (track_list example_three
                 !! Z.to_nat (track_index example_three + 2))
       else None).
Proof.
  assert (0 <= track_index example_three + 2) as H0
    by (vm_compute; discriminate).
  split; [exact H0|].
  exact (proj1 (next_track_info_nonnegative 2 example_three H0)).
Defined.

(** ** What no method does *)

Lemma static_upd_owner h r o :
  same_static h (upd h r (Track.set_owner o (h r))).
Proof.
  intros r'. unfold upd. destruct (Nat.eqb_spec r' r); subst; auto.
Qed.

Lemma static_upd_start h r v :
  same_static h (upd h r (Track.set_start v (h r))).
Proof.
  intros r'. unfold upd. destruct (Nat.eqb_spec r' r); subst; auto.
Qed.

Lemma static_upd_pause h r v :
  same_static h (upd h r (Track.set_pause v (h r))).
Proof.
  intros r'. unfold upd. destruct (Nat.eqb_spec r' r); subst; auto.
Qed.

Lemma static_refl h : same_static h h.
Proof. intros r. auto. Qed.

Lemma static_trans h1 h2 h3 :
  same_static h1 h2 -> same_static h2 h3 -> same_static h1 h3.
Proof.
  intros H12 H23 r. destruct (H12 r) as (Ha & Hb & Hc).
  destruct (H23 r) as (Ha' & Hb' & Hc'). repeat split; congruence.
Qed.

Create HintDb static.
#[local] Hint Resolve static_refl static_upd_owner static_upd_start
  static_upd_pause : static.

Lemma transport_static c s :
  transport c = true -> same_static (heap s) (heap (exec c s)).
Proof.
  destruct s as [tl ti [cur|] p h]; destruct c; cbn [transport];
    try discriminate; intros _; cbn [exec];
    unfold PlayList.play, PlayList.replay, PlayList.pause, PlayList.stop,
      PlayList.unpause, PlayList.remaining, PlayList.elapsed; run;
    split_ifs; eauto using static_trans with static.
Qed.

Lemma exec_static c s : same_static (heap s) (heap (exec c s)).
Proof.
  destruct (is_query c) eqn:Hq;
    [rewrite query_frame by exact Hq; apply static_refl|].
  destruct (transport c) eqn:Ht; [apply transport_static, Ht|].
  destruct c; try discriminate; cbn [exec].
  - destruct (next_track_effect now s) as [->|(x & Hx & ->)];
      cbn; auto with static.
  - unfold after. rewrite start_effect. cbn.
    eapply static_trans; [apply static_upd_owner | apply static_upd_start].
  - unfold after. rewrite add_run. destruct (truthy _); cbn; auto with static.
  - unfold after. rewrite add_list_run.
    destruct (add_list_loop owner tracks s) as (_ & _ & _ & _ & _ & _ & Hh).
    intros r. rewrite Hh. destruct (bool_decide _); auto.
  - unfold after. rewrite clear_run.
    destruct (0 <? _); cbn; apply static_refl.
  - destruct (delete_keeps indexes by_range s) as (_ & _ & _ & ->).
    apply static_refl.
Qed.

(** X20: No call, whether it returns or raises, assigns the [id], [title] or
    [time] of any track object: along every sequence of calls they stay
    what they were. *)
Theorem static_attributes_kept (calls : list call) (s : State) :
  same_static (heap s) (heap (fold_left (fun s c => exec c s) calls s)).
Proof.
  revert s. induction calls as [|c calls IH]; intros s; cbn.
  - apply static_refl.
  - eapply static_trans; [apply exec_static | apply IH].
Qed.

Lemma exec_keeps_current c s :
  current_track s <> None -> current_track (exec c s) <> None.
Proof.
  intros Hc.
  destruct (is_query c) eqn:Hq; [rewrite query_frame by exact Hq; exact Hc|].
  destruct (transport c) eqn:Ht.
  { destruct (transport_effect c s Ht) as (_ & _ & -> & _). exact Hc. }
  destruct c; try discriminate; cbn [exec].
  - destruct (next_track_effect now s) as [->|(x & Hx & ->)];
      [exact Hc | cbn; discriminate].
  - unfold after. rewrite start_effect. cbn. discriminate.
  - destruct (add_effect owner track s) as (_ & _ & -> & _). exact Hc.
  - destruct (add_list_effect owner tracks s) as (_ & _ & -> & _). exact Hc.
  - unfold after. rewrite clear_run. destruct (0 <? _); cbn; exact Hc.
  - destruct (delete_keeps indexes by_range s) as (_ & -> & _). exact Hc.
Qed.

(** X21: Once there is a current track there always is one: no call, not
    [stop], [clear] or [delete] of its entry, sets [current_track] back
    to [None]. *)
Theorem current_track_never_reset (calls : list call) (s : State) :
  current_track s <> None ->
  current_track (fold_left (fun s c => exec c s) calls s) <> None.
Proof.
  revert s. induction calls as [|c calls IH]; intros s Hc; cbn.
  - exact Hc.
  - apply IH, exec_keeps_current, Hc.
Qed.

Lemma current_track_never_reset_witness :
  current_track example_started <> None /\
  current_track
    (fold_left (fun s c => exec c s)
       [Stop; Clear; Delete [0] false; Pause 0 12] example_started)
  <> None.
Proof.
  assert (current_track example_started <> None) as Hc by discriminate.
  split; [exact Hc|].
  exact (current_track_never_reset
           [Stop; Clear; Delete [0] false; Pause 0 12] example_started Hc).
Defined.

(** The calls that are not queue methods leave [track_list] as it is. *)
Lemma exec_keeps_list (c : call) (s : State) :
  match c with
  | Add _ _ | AddList _ _ | Clear | Delete _ _ => True
  | _ => track_list (exec c s) = track_list s
  end.
Proof.
  destruct (is_query c) eqn:Hq.
  { rewrite query_frame by exact Hq. destruct c; auto. }
  destruct (transport c) eqn:Ht.
  { destruct (transport_effect c s Ht) as (Hl & _). destruct c; auto. }
  destruct c; try discriminate; auto; cbn [exec].
  - destruct (next_track_effect now s) as [->|(x & Hx & ->)]; reflexivity.
  - unfold after. rewrite start_effect. reflexivity.
Qed.

(** X3: [play], [replay], [pause] and [stop] with no current track raise
    AttributeError after assigning [is_paused] ([True] for [pause],
    [False] for the others) and change nothing else. *)
Theorem transport_without_current (c : call) (s : State) :
  transport c = true -> current_track s = None ->
  exec c s =
  mkState (track_list s) (track_index s) None
    (match c with Pause _ _ => true | _ => false end) (heap s) /\
  match c with
  | Play offset now now' =>
      result (PlayList.play offset now now') s = Raise AttributeError
  | Replay now => result (PlayList.replay now) s = Raise AttributeError
  | Pause offset now =>
      result (PlayList.pause offset now) s = Raise AttributeError
  | Stop => result PlayList.stop s = Raise AttributeError
  | _ => True
  end.
Proof.
  destruct s as [tl ti cur p h]. cbn [current_track].
  intros Ht ->. destruct c; try discriminate; cbn [exec];
    unfold PlayList.play, PlayList.replay, PlayList.pause, PlayList.stop,
      PlayList.unpause; run; split_ifs; split; reflexivity.
Qed.

Lemma transport_without_current_witness :
  transport (Pause 0 3) = true /\
  current_track example_three = None /\
  exec (Pause 0 3) example_three =
  mkState (track_list example_three) (track_index example_three) None true
    (heap example_three) /\
  result (PlayList.pause 0 3) example_three = Raise AttributeError.
Proof.
  split; [reflexivity|]. split; [reflexivity|].
  exact (transport_without_current (Pause 0 3) example_three
           eq_refl eq_refl).
Defined.

(** ** The queue seen through [queue], [is_last_track] and [last_index] *)

(** X7: With the index within the list: on an empty list [queue] and
    [is_last_track] return [None]; otherwise [queue] returns the length
    and the number of entries not yet served, between 0 and the length,
    [is_last_track] is [True] exactly when that number is 0, and that is
    exactly when the index is one past [last_index]. *)
Theorem queue_and_is_last_track (s : State) :
  cursor_inv s ->
  (track_list s = [] ->
   result PlayList.queue s = Ret None /\
   result PlayList.is_last_track s = Ret None /\
   result PlayList.last_index s = Ret 0) /\
  (track_list s <> [] ->
   exists remaining,
     result PlayList.queue s = Ret (Some (len (track_list s), remaining)) /\
     remaining = len (track_list s) - track_index s /\
     0 <= remaining <= len (track_list s) /\
     result PlayList.is_last_track s = Ret (Some (remaining =? 0)) /\
     result PlayList.last_index s = Ret (len (track_list s) - 1) /\
     (remaining = 0 <-> track_index s = len (track_list s) - 1 + 1)).
Proof.
  unfold cursor_inv. intros Hinv.
  unfold PlayList.queue, PlayList.is_last_track, PlayList.last_index. run.
  destruct (track_list s) as [|x l] eqn:El.
  - split; [intros _; repeat split | congruence].
  - split; [discriminate | intros _].
    rewrite len_cons in *. pose proof (len_nonneg l).
    destruct (Z.ltb_spec 0 (len l + 1)); [|lia].
    destruct (Z.eqb_spec (len l + 1) 0); [lia|]. cbn.
    eexists. split; [reflexivity|]. split; [reflexivity|].
    split; [lia|]. split; [|split; [reflexivity | lia]].
    destruct (Z.leb_spec (len l + 1) (track_index s));
      destruct (Z.eqb_spec (len l + 1 - track_index s) 0);
      try reflexivity; lia.
Qed.

Lemma queue_and_is_last_track_witness :
  cursor_inv example_served /\
  track_list example_served <> [] /\
  exists remaining,
    result PlayList.queue example_served
    = Ret (Some (len (track_list example_served), remaining)) /\
    result PlayList.is_last_track example_served
    = Ret (Some (remaining =? 0)).
Proof.
  assert (cursor_inv example_served) as Hinv
    by (vm_compute; split; discriminate).
  assert (track_list example_served <> []) as Hne by discriminate.
  split; [exact Hinv|]. split; [exact Hne|].
  destruct (proj2 (queue_and_is_last_track example_served Hinv) Hne)
    as (r & Hq & _ & _ & Hl & _).
  exists r. split; [exact Hq | exact Hl].
Defined.

(** ** After [clear] *)

(** X8: With the index within the list, [clear] keeps the current track, the
    pause flag and every track object; a second [clear] returns [False]
    and changes nothing; and on the cleared object [queue] and
    [is_last_track] return [None], [next_track] returns [None],
    [get_tracks] returns the empty list and [next_track_info] with a
    [jump] that is not negative returns [None]. *)
Theorem clear_then_queries (s : State) :
  cursor_inv s ->
  let s' := after PlayList.clear s in
  s' = mkState [] 0 (current_track s) (is_paused s) (heap s) /\
  PlayList.clear s' = (Ret false, s') /\
  result PlayList.queue s' = Ret None /\
  result PlayList.is_last_track s' = Ret None /\
  (forall now, PlayList.next_track now s' = (Ret None, s')) /\
  (forall amount from_index,
     result (PlayList.get_tracks amount from_index) s' = Ret []) /\
  (forall jump, 0 <= jump ->
     result (PlayList.next_track_info jump) s' = Ret None).
Proof.
  unfold cursor_inv. intros Hinv. cbn zeta.
  assert (Hs : after PlayList.clear s
               = mkState [] 0 (current_track s) (is_paused s) (heap s)).
  { unfold after. rewrite clear_run.
    destruct s as [[|x l] ti cur p h]; cbn in *.
    - rewrite (@len_nil ref) in *. cbn. f_equal. lia.
    - rewrite len_cons. pose proof (len_nonneg l).
      destruct (Z.ltb_spec 0 (len l + 1)); [reflexivity | lia]. }
  rewrite Hs. split; [reflexivity|].
  split; [reflexivity|]. split; [reflexivity|]. split; [reflexivity|].
  split; [reflexivity|]. split; [reflexivity|].
  intros jump Hj. unfold PlayList.next_track_info. run.
  rewrite (@len_nil ref).
  destruct (Z.eqb_spec jump 0) as [->|Hne]; cbn; [reflexivity|].
  destruct (Z.ltb_spec (0 + jump) 0); [lia | reflexivity].
Qed.

Lemma clear_then_queries_witness :
  cursor_inv example_three /\
  after PlayList.clear example_three
  = mkState [] 0 (current_track example_three) (is_paused example_three)
      (heap example_three) /\
  PlayList.clear (after PlayList.clear example_three)
  = (Ret false, after PlayList.clear example_three).
Proof.
  assert (cursor_inv example_three) as Hinv
    by (vm_compute; split; discriminate).
  split; [exact Hinv|].
  destruct (clear_then_queries example_three Hinv) as (Hs & Hc & _).
  split; [exact Hs | exact Hc].
Defined.

(** ** Looking ahead and serving *)

(** X5: What [next_track_info()] shows is what [next_track] serves: with an
    index that is not negative, if [next_track_info(0)] returns
    [(i, x)] then [i] is the index, and [next_track] returns [x], makes
    it the current track and moves the index to [i + 1]. *)
Theorem next_track_info_predicts_next_track
  (s : State) (now i : Z) (x : ref) :
  0 <= track_index s ->
  result (PlayList.next_track_info 0) s = Ret (Some (i, x)) ->
  i = track_index s /\
  result (PlayList.next_track now) s = Ret (Some x) /\
  current_track (after (PlayList.next_track now) s) = Some x /\
  track_index (after (PlayList.next_track now) s) = i + 1 /\
  Track.start (heap (after (PlayList.next_track now) s) x) = now.
Proof.
  intros H0. unfold PlayList.next_track_info, PlayList.next_track. run.
  destruct (Z.ltb_spec (track_index s) (len (track_list s))) as [Hlt|Hge];
    cbn; [|discriminate].
  destruct (py_getitem (track_list s) (track_index s)) as [y|]; cbn;
    [|discriminate].
  intros [= <- <-].
  destruct (Z.ltb_spec 0 (len (track_list s))); [|lia].
  destruct (Z.leb_spec (track_index s) (len (track_list s))); [|lia].
  cbn. rewrite upd_same. repeat split; reflexivity.
Qed.

Lemma next_track_info_predicts_next_track_witness :
  0 <= track_index example_three /\
  result (PlayList.next_track_info 0) example_three = Ret (Some (0, 0%nat)) /\
  result (PlayList.next_track 7) example_three = Ret (Some 0%nat).
Proof.
  assert (0 <= track_index example_three) as H0
    by (vm_compute; discriminate).
  assert (result (PlayList.next_track_info 0) example_three
          = Ret (Some (0, 0%nat))) as Hi by reflexivity.
  split; [exact H0|]. split; [exact Hi|].
  exact (proj1 (proj2 (next_track_info_predicts_next_track
                         example_three 7 0 0%nat H0 Hi))).
Defined.

Lemma next_track_served now s n x :
  track_index s = Z.of_nat n -> track_list s !! n = Some x ->
  PlayList.next_track now s =
  (Ret (Some x),
   mkState (track_list s) (track_index s + 1) (Some x) (is_paused s)
     (upd (heap s) x (Track.set_start now (heap s x)))).
Proof.
  intros Hi Hx. pose proof (lookup_lt_Some _ _ _ Hx) as Hlt.
  assert (Hr : 0 <= track_index s < len (track_list s))
    by (unfold len; lia).
  pose proof (py_getitem_in_range _ _ Hr) as Hg.
  rewrite Hi, Nat2Z.id, Hx in Hg. rewrite <- Hi in Hg.
  destruct s as [tl ti cur p h]. cbn in *.
  unfold PlayList.next_track. run.
  destruct (Z.ltb_spec 0 (len tl)); [|lia].
  destruct (Z.leb_spec ti (len tl)); [|lia].
  rewrite Hg. reflexivity.
Qed.

(** The loop of [serve], from the [n]-th entry on. *)
Lemma serve_loop nows : forall s served n,
  track_index s = Z.of_nat n ->
  (n + length nows <= length (track_list s))%nat ->
  exists h',
    for_fold nows
      (fun served now =>
         do x <- PlayList.next_track now; ret (served ++ [x]))
      served s
    = (Ret (served ++ map Some (take (length nows) (drop n (track_list s)))),
       mkState (track_list s) (track_index s + len nows)
         (match nows with
          | [] => current_track s
          | _ => track_list s !! (n + length nows - 1)%nat
          end)
         (is_paused s) h') /\
    same_static (heap s) h'.
Proof.
  induction nows as [|now nows IH]; intros s served n Hi Hlen.
  - exists (heap s). split; [|apply static_refl].
    cbn. rewrite app_nil_r, Z.add_0_r. destruct s; reflexivity.
  - cbn [length] in Hlen.
    destruct (lookup_lt_is_Some_2 (track_list s) n) as [x Hx]; [lia|].
    rewrite for_fold_cons, bind_run, (next_track_served now s n x Hi Hx).
    cbv beta iota. unfold ret at 1. cbv beta iota.
    match goal with
    | |- context [for_fold nows _ _ ?s1] =>
        destruct (IH s1 (served ++ [Some x]) (S n)) as (h' & Hrun & Hst);
          [cbn; lia | cbn; lia |]
    end.
    exists h'. split.
    + rewrite Hrun. cbn [track_list track_index is_paused current_track].
      rewrite (drop_S _ _ _ Hx). cbn [length take map].
      rewrite <- app_assoc. cbn [app]. rewrite len_cons.
      f_equal. f_equal; [lia|].
      destruct nows as [|now' nows']; cbn [length].
      * replace (n + 1 - 1)%nat with n by lia. symmetry. exact Hx.
      * f_equal. lia.
    + eapply static_trans; [apply static_upd_start | exact Hst].
Qed.

(** X4: Reading [next_track] as many times as there are entries left, or
    fewer, serves the entries from the index on, in list order, none
    skipped and none [None]; the list is unchanged, the index moves on by
    the number of reads, the last entry served is the current track, and
    once every entry is served [is_last_track] is [True]. *)
Theorem serve_in_order (nows : list Z) (s : State) :
  cursor_inv s ->
  len nows <= len (track_list s) - track_index s ->
  let s' := after (serve nows) s in
  result (serve nows) s =
    Ret (map Some (take (length nows)
                     (drop (Z.to_nat (track_index s)) (track_list s)))) /\
  track_list s' = track_list s /\
  track_index s' = track_index s + len nows /\
  is_paused s' = is_paused s /\
  (nows <> [] ->
   current_track s' =
   track_list s !! (Z.to_nat (track_index s) + length nows - 1)%nat) /\
  (track_list s <> [] -> len nows = len (track_list s) - track_index s ->
   result PlayList.is_last_track s' = Ret (Some true)).
Proof.
  unfold cursor_inv. intros Hinv Hlen. cbn zeta.
  destruct (serve_loop nows s [] (Z.to_nat (track_index s)))
    as (h' & Hrun & _); [lia | unfold len in *; lia |].
  unfold serve, result, after. rewrite Hrun. cbn [fst snd app].
  cbn [track_list track_index is_paused current_track].
  split; [reflexivity|]. split; [reflexivity|]. split; [reflexivity|].
  split; [reflexivity|]. split.
  - destruct nows; [congruence | reflexivity].
  - intros Hne Hall. unfold PlayList.is_last_track. run.
    destruct (track_list s) as [|x l]; [congruence|].
    rewrite len_cons in *. pose proof (len_nonneg l).
    destruct (Z.ltb_spec 0 (len l + 1)); [|lia].
    destruct (Z.leb_spec (len l + 1) (track_index s + len nows));
      [reflexivity | lia].
Qed.

Lemma serve_in_order_witness :
  cursor_inv example_three /\
  len [5; 6; 9] <= len (track_list example_three) - track_index example_three /\
  result (serve [5; 6; 9]) example_three
  = Ret [Some 0%nat; Some 1%nat; Some 2%nat] /\
  result PlayList.is_last_track (after (serve [5; 6; 9]) example_three)
  = Ret (Some true).
Proof.
  assert (cursor_inv example_three) as Hinv
    by (vm_compute; split; discriminate).
  assert (len [5; 6; 9]
          <= len (track_list example_three) - track_index example_three)
    as Hlen by (vm_compute; discriminate).
  split; [exact Hinv|]. split; [exact Hlen|].
  destruct (serve_in_order [5; 6; 9] example_three Hinv Hlen)
    as (Hr & _ & _ & _ & _ & Hl).
  split; [exact Hr|]. apply Hl; [discriminate | reflexivity].
Defined.

(** ** Listing entries with [get_tracks] *)

(** The loop of [get_tracks] over the positions [j], [j + 1], ... *)
Lemma get_tracks_loop amount n : forall j res ic s,
  (j + n <= length (track_list s))%nat ->
  for_fold (map (fun k => Z.of_nat j + Z.of_nat k) (seq 0 n))
    (PlayList.get_tracks_step amount) (res, ic) s
  = (Ret (res ++ imap (fun k x => (Z.of_nat j + Z.of_nat k, x))
                   (take (Nat.min n (Z.to_nat (amount - ic)))
                      (drop j (track_list s))),
          ic + Z.of_nat (Nat.min n (Z.to_nat (amount - ic)))), s).
Proof.
  induction n as [|n IH]; intros j res ic s Hlen.
  - cbn. rewrite app_nil_r, Z.add_0_r. reflexivity.
  - cbn [seq map]. rewrite for_fold_cons.
    destruct (lookup_lt_is_Some_2 (track_list s) j) as [x Hx]; [lia|].
    unfold PlayList.get_tracks_step at 1.
    destruct (Z.leb_spec ic (amount - 1)) as [Hle|Hgt].
    + rewrite bind_run. cbn [get]. cbv beta iota.
      rewrite py_getitem_in_range by (unfold len; lia).
      rewrite Z.add_0_r, Nat2Z.id, Hx, bind_lift_some. cbv beta zeta.
      unfold ret at 1. cbv beta iota.
      rewrite <- seq_shift, map_map.
      rewrite (map_ext _ (fun k => Z.of_nat (S j) + Z.of_nat k))
        by (intros k; lia).
      rewrite IH by lia.
      replace (Z.to_nat (amount - ic))
        with (S (Z.to_nat (amount - (ic + 1)))) by lia.
      cbn [Nat.min]. rewrite (drop_S _ _ _ Hx). cbn [take].
      rewrite imap_cons, <- app_assoc. cbn [app].
      rewrite Z.add_0_r.
      rewrite (imap_ext ((fun k x0 => (Z.of_nat j + Z.of_nat k, x0)) ∘ S)
                 (fun k x0 => (Z.of_nat (S j) + Z.of_nat k, x0)))
        by (intros k y _; cbn; f_equal; lia).
      rewrite Nat2Z.inj_succ. do 3 f_equal. lia.
    + unfold ret at 1. cbv beta iota.
      rewrite <- seq_shift, map_map.
      rewrite (map_ext _ (fun k => Z.of_nat (S j) + Z.of_nat k))
        by (intros k; lia).
      rewrite IH by lia.
      replace (Z.to_nat (amount - ic)) with 0%nat by lia.
      rewrite !Nat.min_0_r. cbn. reflexivity.
Qed.

Lemma enumerate_from_lookup {A} (a : Z) (n : nat) (l : list A) k i x :
  0 <= a ->
  enumerate_from a n l !! k = Some (i, x) ->
  i = a + Z.of_nat k /\ (k < n)%nat /\ l !! Z.to_nat i = Some x.
Proof.
  intros Ha. unfold enumerate_from. rewrite list_lookup_imap.
  destruct (take n (drop (Z.to_nat a) l) !! k) as [y|] eqn:Hy;
    [|discriminate].
  cbn. intros [= <- <-].
  apply lookup_take_Some in Hy as [Hy Hk]. rewrite lookup_drop in Hy.
  split; [reflexivity|]. split; [exact Hk|].
  replace (Z.to_nat (a + Z.of_nat k)) with (Z.to_nat a + k)%nat by lia.
  exact Hy.
Qed.

(** X6: [get_tracks] never raises and changes nothing when its start (the
    index when [from_index], else 0) is not negative: it returns the
    pairs [(i, track_list[i])] for the consecutive positions from the
    start, [amount] of them or as many as the list has left, and none
    when [amount] is 0 or less. *)
Theorem get_tracks_enumerates (amount : Z) (from_index : bool) (s : State) :
  (from_index = true -> 0 <= track_index s) ->
  PlayList.get_tracks amount from_index s =
  (Ret (enumerate_from (if from_index then track_index s else 0)
          (Z.to_nat amount) (track_list s)), s) /\
  (forall k i x,
     enumerate_from (if from_index then track_index s else 0)
       (Z.to_nat amount) (track_list s) !! k = Some (i, x) ->
     i = (if from_index then track_index s else 0) + Z.of_nat k /\
     Z.of_nat k < amount /\
     track_list s !! Z.to_nat i = Some x) /\
  length (enumerate_from (if from_index then track_index s else 0)
            (Z.to_nat amount) (track_list s))
  = Nat.min (Z.to_nat amount)
      (length (track_list s)
       - Z.to_nat (if from_index then track_index s else 0)).
Proof.
  intros Hfrom.
  set (start := if from_index then track_index s else 0).
  assert (H0 : 0 <= start) by (subst start; destruct from_index; auto; lia).
  split; [|split].
  - unfold PlayList.get_tracks. rewrite bind_run. cbn [get]. cbv beta iota.
    fold start.
    destruct (Z.ltb_spec 0 (len (track_list s))) as [Hpos|Hemp].
    + rewrite bind_run. unfold py_range.
      destruct (Z_le_gt_dec start (len (track_list s))) as [Hle|Hgt].
      * rewrite (map_ext _ (fun k => Z.of_nat (Z.to_nat start) + Z.of_nat k))
          by (intros k; lia).
        rewrite get_tracks_loop by (unfold len in *; lia).
        unfold ret. cbn [fst app]. f_equal. f_equal.
        unfold enumerate_from.
        rewrite (imap_ext _ (fun k x => (start + Z.of_nat k, x)))
          by (intros k y _; f_equal; lia).
        f_equal. rewrite Z.sub_0_r.
        replace (Z.to_nat (len (track_list s) - start))
          with (length (drop (Z.to_nat start) (track_list s)))
          by (rewrite length_drop; unfold len; lia).
        rewrite <- take_take. apply take_ge.
        rewrite length_take. lia.
      * replace (Z.to_nat (len (track_list s) - start)) with 0%nat by lia.
        cbn. unfold enumerate_from.
        rewrite drop_ge by (unfold len in *; lia).
        rewrite take_nil. reflexivity.
    + destruct (track_list s) as [|x l].
      * unfold enumerate_from. rewrite drop_nil, take_nil. reflexivity.
      * rewrite len_cons in Hemp. pose proof (len_nonneg l). lia.
  - intros k i x Hk.
    destruct (enumerate_from_lookup _ _ _ _ _ _ H0 Hk) as (Hi & Hlt & Hx).
    split; [exact Hi|]. split; [lia | exact Hx].
  - unfold enumerate_from. rewrite length_imap, length_take, length_drop.
    reflexivity.
Qed.

Lemma get_tracks_enumerates_witness :
  (true = true -> 0 <= track_index example_served) /\
  PlayList.get_tracks 5 true example_served = (Ret [], example_served) /\
  PlayList.get_tracks 2 false example_three
  = (Ret [(0, 0%nat); (1, 1%nat)], example_three).
Proof.
  assert (true = true -> 0 <= track_index example_served) as H1
    by (intros _; vm_compute; discriminate).
  assert (false = true -> 0 <= track_index example_three) as H2
    by discriminate.
  split; [exact H1|]. split.
  - exact (proj1 (get_tracks_enumerates 5 true example_served H1)).
  - exact (proj1 (get_tracks_enumerates 2 false example_three H2)).
Defined.

(** ** [delete] with any list of indexes *)





(** ** [add] and [delete] together *)

Lemma delete_single i r s :
  track_index s <= i < len (track_list s) -> 0 <= track_index s ->
  track_list s !! Z.to_nat i = Some r ->
  PlayList.delete [i] false s =
  (Ret (Some (<["deleted_indexes_len" := VInt 1]>
                (<["deleted_indexes" := VList [py_str i]]>
                   (<["track_title" := VStr (Track.title (heap s r))]> ∅)))),
   with_track_list (delete (Z.to_nat i) (track_list s)) s).
Proof.
  intros Hi H0 Hr. unfold PlayList.delete. rewrite bind_run. cbn [get].
  cbv beta iota. rewrite bind_run.
  change (sorted_reverse [i]) with [i].
  rewrite for_fold_cons, delete_step_run by exact H0.
  rewrite (proj2 (qualifies_spec s i) Hi). cbn [for_fold app].
  unfold ret at 1. cbv beta iota zeta.
  change (reverse [py_str i]) with [py_str i].
  change (len [py_str i]) with 1. cbn [Z.ltb Z.eqb Z.compare Pos.eqb].
  rewrite bind_run, py_getitem_head. cbn [head].
  rewrite bind_lift_some. cbv beta.
  rewrite py_int_str, bind_lift_some. cbv beta.
  rewrite py_getitem_in_range by lia.
  rewrite Hr, bind_lift_some. cbv beta. reflexivity.
Qed.

Lemma delete_last_of_app {A} (l : list A) x : delete (length l) (l ++ [x]) = l.
Proof. induction l as [|y l IH]; cbn; [reflexivity | f_equal; exact IH]. Qed.

(** X10: A track that was added can be taken off again: with the index within
    the list and a true [id], [add] followed by [delete] of the position
    it got (the former length) gives back the list as it was; the result
    names the track's title and that one index, and only the track's
    [owner] stays changed. *)
Theorem add_then_delete_restores_list
  (owner : string) (track : ref) (s : State) :
  cursor_inv s ->
  truthy (Track.id (heap s track)) = true ->
  let s1 := after (PlayList.add owner track) s in
  let s2 := after (PlayList.delete [len (track_list s)] false) s1 in
  track_list s2 = track_list s /\
  track_index s2 = track_index s /\
  current_track s2 = current_track s /\
  is_paused s2 = is_paused s /\
  heap s2 = upd (heap s) track (Track.set_owner owner (heap s track)) /\
  exists d,
    result (PlayList.delete [len (track_list s)] false) s1 = Ret (Some d) /\
    d !! "track_title" = Some (VStr (Track.title (heap s track))) /\
    d !! "deleted_indexes" = Some (VList [py_str (len (track_list s))]) /\
    d !! "deleted_indexes_len" = Some (VInt 1).
Proof.
  unfold cursor_inv. intros Hinv Hid. cbn zeta.
  assert (Hs1 : after (PlayList.add owner track) s
                = mkState (track_list s ++ [track]) (track_index s)
                    (current_track s) (is_paused s)
                    (upd (heap s) track (Track.set_owner owner (heap s track))))
    by (unfold after; rewrite add_run, Hid; reflexivity).
  rewrite Hs1. set (s1 := mkState _ _ _ _ _).
  assert (Hd : PlayList.delete [len (track_list s)] false s1 = _)
    by (apply (delete_single _ track);
        [cbn; rewrite len_app; change (len [track]) with 1; lia
        | cbn; lia
        | cbn; unfold len; rewrite Nat2Z.id; apply list_lookup_middle;
          reflexivity]).
  unfold after, result. rewrite Hd. cbn [fst snd s1 track_list track_index
    current_track is_paused heap with_track_list].
  unfold len at 1. rewrite Nat2Z.id, delete_last_of_app.
  repeat (split; [reflexivity|]).
  eexists. split; [reflexivity|].
  rewrite upd_same. cbn [Track.title Track.set_owner].
  split; [|split]; by simplify_map_eq.
Qed.

Lemma add_then_delete_restores_list_witness :
  cursor_inv example_three /\
  truthy (Track.id (heap example_three 1%nat)) = true /\
  track_list
    (after (PlayList.delete [len (track_list example_three)] false)
       (after (PlayList.add "bob" 1%nat) example_three))
  = track_list example_three.
Proof.
  assert (cursor_inv example_three) as Hinv
    by (vm_compute; split; discriminate).
  assert (truthy (Track.id (heap example_three 1%nat)) = true) as Hid
    by reflexivity.
  split; [exact Hinv|]. split; [exact Hid|].
  exact (proj1 (add_then_delete_restores_list "bob" 1%nat example_three
                  Hinv Hid)).
Defined.

(** ** [add_list] as repeated [add] *)

Lemma for_fold_app {A B} (body : B -> A -> M B) l1 l2 acc s :
  for_fold (l1 ++ l2) body acc s =
  match for_fold l1 body acc s with
  | (Ret a, s') => for_fold l2 body a s'
  | (Raise e, s') => (Raise e, s')
  end.
Proof.
  revert acc s. induction l1 as [|x l1 IH]; intros acc s; [reflexivity|].
  cbn [app]. rewrite !for_fold_cons.
  destruct (body acc x s) as [[a|e] s']; [apply IH | reflexivity].
Qed.

(** X11: [add_list] of a list put together from two does what [add_list] of
    the first followed by [add_list] of the second does, [add_list] of
    one track does what [add] of it does, and [add_list] of no tracks
    changes nothing; it never raises. *)
Theorem add_list_composes (owner : string) (s : State) :
  (forall tracks1 tracks2,
     after (PlayList.add_list owner (tracks1 ++ tracks2)) s
     = after (PlayList.add_list owner tracks2)
         (after (PlayList.add_list owner tracks1) s)) /\
  (forall track,
     after (PlayList.add_list owner [track]) s
     = after (PlayList.add owner track) s) /\
  PlayList.add_list owner [] s = (Ret tt, s) /\
  (forall tracks, result (PlayList.add_list owner tracks) s = Ret tt).
Proof.
  split; [|split; [|split]].
  - intros tracks1 tracks2. unfold after. rewrite !add_list_run.
    unfold for_each. rewrite for_fold_app.
    pose proof (add_list_loop owner tracks1 s) as (Hr & _).
    unfold for_each in Hr.
    destruct (for_fold tracks1 _ tt s) as [[[]|e] s']; cbn in Hr;
      [reflexivity | discriminate].
  - intros track. unfold after. rewrite add_list_run. unfold for_each.
    rewrite for_fold_cons. cbv beta. rewrite add_body_run, add_run.
    unfold valid. destruct (truthy _); reflexivity.
  - reflexivity.
  - intros tracks. unfold result. rewrite add_list_run.
    exact (proj1 (add_list_loop owner tracks s)).
Qed.

(** X12: [add_list] sets [owner] on exactly the tracks it appends: every
    given track with a true [id] ends with the given owner, and any other
    track object, a rejected one included, is left as it was; nothing but
    [owner] is assigned on a track, and the index, the current track and
    the pause flag stay. *)
Theorem add_list_stamps_owner
  (owner : string) (tracks : list ref) (s : State) :
  let s' := after (PlayList.add_list owner tracks) s in
  (forall t, t ∈ tracks -> truthy (Track.id (heap s t)) = true ->
     heap s' t = Track.set_owner owner (heap s t)) /\
  (forall t, t ∉ tracks \/ truthy (Track.id (heap s t)) = false ->
     heap s' t = heap s t) /\
  track_index s' = track_index s /\
  current_track s' = current_track s /\
  is_paused s' = is_paused s.
Proof.
  cbn zeta. unfold after. rewrite add_list_run.
  destruct (add_list_loop owner tracks s) as (_ & _ & Hi & Hc & Hp & _ & Hh).
  repeat split; try assumption.
  - intros t Hin Hid. rewrite Hh, bool_decide_eq_true_2; [reflexivity|].
    apply list_elem_of_In, filter_In. split; [apply list_elem_of_In, Hin|].
    exact Hid.
  - intros t Hout. rewrite Hh, bool_decide_eq_false_2; [reflexivity|].
    intros Hin. apply list_elem_of_In, filter_In in Hin as [Hin Hid].
    unfold valid in Hid. destruct Hout as [Hout|Hout]; [|congruence].
    apply Hout, list_elem_of_In, Hin.
Qed.

(** ** Timing a track: [start], [pause], [play], [replay], [stop] *)

Lemma elapsed_run now s :
  PlayList.elapsed now s =
  (Ret match current_track s with
       | Some c =>
           if is_paused s then Track.pause (heap s c)
           else if Track.time (heap s c) <? now - Track.start (heap s c)
                then 0 else now - Track.start (heap s c)
       | None => 0
       end, s).
Proof.
  destruct s as [tl ti [c|] p h]; unfold PlayList.elapsed; run;
    split_ifs; reflexivity.
Qed.

Lemma remaining_run now s :
  PlayList.remaining now s =
  (Ret match current_track s with
       | Some c =>
           Track.time (heap s c)
           - (if is_paused s then Track.pause (heap s c)
              else if Track.time (heap s c) <? now - Track.start (heap s c)
                   then 0 else now - Track.start (heap s c))
       | None => 0
       end, s).
Proof.
  destruct s as [tl ti [c|] p h]; unfold PlayList.remaining, PlayList.elapsed;
    run; split_ifs; reflexivity.
Qed.

Lemma has_active_track_run now now' s :
  PlayList.has_active_track now now' s =
  (Ret (is_paused s
        || (negb (match fst (PlayList.elapsed now s) with
                  | Ret e => e =? 0
                  | Raise _ => true
                  end)
            && match fst (PlayList.elapsed now' s) with
               | Ret e => 0 <? e
               | Raise _ => false
               end)), s).
Proof.
  unfold PlayList.has_active_track. rewrite bind_run. cbn [get].
  cbv beta iota. destruct (is_paused s) eqn:Hp; [reflexivity|].
  rewrite bind_run, !elapsed_run, Hp. cbn [fst orb].
  match goal with |- context [?e =? 0] => destruct (e =? 0) end;
    [reflexivity|].
  rewrite bind_run, elapsed_run, Hp. cbv beta iota. cbn [negb andb].
  match goal with |- context [0 <? ?e] => destruct (0 <? e) end; reflexivity.
Qed.

(** X13: [start] times the given track from the clock value read: it returns
    the track, makes it the current track, clears the pause flag, sets
    the track's [owner] and [start] and touches no other track object and
    neither the list nor the index.  Read at the same clock value,
    [elapsed] is then 0; read later it is the time passed, or 0 once that
    exceeds the track's [time]; [remaining] is [time] minus that. *)
Theorem start_then_elapsed (owner : string) (track : ref) (now : Z) (s : State) :
  let s' := after (PlayList.start owner track now) s in
  result (PlayList.start owner track now) s = Ret track /\
  current_track s' = Some track /\
  is_paused s' = false /\
  track_list s' = track_list s /\
  track_index s' = track_index s /\
  heap s' track = Track.set_start now (Track.set_owner owner (heap s track)) /\
  (forall r, r <> track -> heap s' r = heap s r) /\
  result (PlayList.elapsed now) s' = Ret 0 /\
  (forall now',
     result (PlayList.elapsed now') s' =
       Ret (if Track.time (heap s track) <? now' - now then 0
            else now' - now) /\
     result (PlayList.remaining now') s' =
       Ret (Track.time (heap s track)
            - (if Track.time (heap s track) <? now' - now then 0
               else now' - now))).
Proof.
  cbn zeta. unfold after, result. rewrite start_effect. cbn [fst snd].
  split; [reflexivity|]. split; [reflexivity|]. split; [reflexivity|].
  split; [reflexivity|]. split; [reflexivity|].
  rewrite !elapsed_run. cbn [fst current_track is_paused heap].
  rewrite !upd_same. cbn [Track.time Track.start Track.set_start
    Track.set_owner].
  split; [reflexivity|]. split.
  { intros r Hr. rewrite !upd_other by exact Hr. reflexivity. }
  split.
  { rewrite Z.sub_diag. destruct (_ <? 0); reflexivity. }
  intros now'. rewrite elapsed_run, remaining_run.
  cbn [fst current_track is_paused heap]. rewrite !upd_same.
  split; reflexivity.
Qed.

Lemma pause_run offset now c s :
  current_track s = Some c ->
  PlayList.pause offset now s =
  (Ret tt,
   mkState (track_list s) (track_index s) (Some c) true
     (upd (heap s) c
        (Track.set_pause
           (if offset =? 0 then now - Track.start (heap s c) else offset)
           (heap s c)))).
Proof.
  destruct s as [tl ti cur p h]. cbn [current_track]. intros ->.
  unfold PlayList.pause. run. destruct (offset =? 0); reflexivity.
Qed.





Lemma stop_run c s :
  current_track s = Some c ->
  PlayList.stop s =
  (Ret tt,
   mkState (track_list s) (track_index s) (Some c) false
     (upd (upd (heap s) c (Track.set_start 0 (heap s c))) c
        (Track.set_pause 0
           (upd (heap s) c (Track.set_start 0 (heap s c)) c)))).
Proof.
  destruct s as [tl ti cur p h]. cbn [current_track]. intros ->.
  unfold PlayList.stop. run. reflexivity.
Qed.

(** X14: [pause] with a current track freezes [elapsed]: whatever the clock
    reads afterwards, [elapsed] is the snapshot taken by [pause] (the
    given offset, or the time since [start] when the offset is 0),
    [remaining] is [time] minus it, and [has_active_track] is [True];
    only the pause flag and the track's [pause] are assigned. *)
Theorem pause_freezes_elapsed (offset now : Z) (c : ref) (s : State) :
  current_track s = Some c ->
  let s' := after (PlayList.pause offset now) s in
  let snapshot :=
    if offset =? 0 then now - Track.start (heap s c) else offset in
  result (PlayList.pause offset now) s = Ret tt /\
  is_paused s' = true /\
  current_track s' = Some c /\
  track_list s' = track_list s /\
  track_index s' = track_index s /\
  heap s' c = Track.set_pause snapshot (heap s c) /\
  (forall r, r <> c -> heap s' r = heap s r) /\
  (forall now' now'',
     result (PlayList.elapsed now') s' = Ret snapshot /\
     result (PlayList.remaining now') s'
     = Ret (Track.time (heap s c) - snapshot) /\
     result (PlayList.has_active_track now' now'') s' = Ret true).
Proof.
  intros Hc. cbn zeta. unfold after, result. rewrite (pause_run _ _ c s Hc).
  cbn [fst snd current_track is_paused track_list track_index heap].
  rewrite upd_same.
  repeat (split; [reflexivity|]). split.
  { intros r Hr. apply upd_other, Hr. }
  intros now' now''.
  rewrite elapsed_run, remaining_run, has_active_track_run.
  cbn [fst current_track is_paused heap orb]. rewrite upd_same.
  repeat split; reflexivity.
Qed.

Lemma pause_freezes_elapsed_witness :
  current_track example_started = Some 0%nat /\
  result (PlayList.elapsed 500)
    (after (PlayList.pause 0 15) example_started) = Ret 5 /\
  result (PlayList.elapsed 16)
    (after (PlayList.pause 0 15) example_started) = Ret 5.
Proof.
  assert (current_track example_started = Some 0%nat) as Hc by reflexivity.
  split; [exact Hc|].
  destruct (pause_freezes_elapsed 0 15 0%nat example_started Hc)
    as (_ & _ & _ & _ & _ & _ & _ & He).
  split; [exact (proj1 (He 500 0)) | exact (proj1 (He 16 0))].
Defined.





(** X17: [stop] with a current track clears the pause flag and sets the
    track's [start] and [pause] to 0, keeping it the current track and
    touching nothing else.  [elapsed] is then the clock value itself, or
    0 once that exceeds the track's [time]: with a clock past the
    track's [time], [has_active_track] is [False], while with a clock
    value from 1 to [time] it is still [True]. *)
Theorem stop_detimes (c : ref) (s : State) :
  current_track s = Some c ->
  let s' := after PlayList.stop s in
  result PlayList.stop s = Ret tt /\
  is_paused s' = false /\
  current_track s' = Some c /\
  track_list s' = track_list s /\
  track_index s' = track_index s /\
  heap s' c = Track.set_pause 0 (Track.set_start 0 (heap s c)) /\
  (forall r, r <> c -> heap s' r = heap s r) /\
  (forall now,
     result (PlayList.elapsed now) s' =
     Ret (if Track.time (heap s c) <? now then 0 else now)) /\
  (forall now now',
     Track.time (heap s c) < now ->
     result (PlayList.has_active_track now now') s' = Ret false) /\
  (forall now,
     0 < now <= Track.time (heap s c) ->
     result (PlayList.has_active_track now now) s' = Ret true).
Proof.
  intros Hc. cbn zeta. unfold after, result. rewrite (stop_run c s Hc).
  cbn [fst snd]. set (s' := mkState _ _ _ _ _).
  assert (Hh : heap s' c = Track.set_pause 0 (Track.set_start 0 (heap s c)))
    by (cbn [heap s']; rewrite !upd_same; reflexivity).
  assert (He : forall now,
            (PlayList.elapsed now s').1
            = Ret (if Track.time (heap s c) <? now then 0 else now)).
  { intros now. rewrite elapsed_run.
    change (current_track s') with (Some c).
    change (is_paused s') with false. cbn [fst]. rewrite Hh.
    cbn [Track.time Track.start Track.set_start Track.set_pause].
    rewrite Z.sub_0_r. reflexivity. }
  split; [reflexivity|]. split; [reflexivity|]. split; [reflexivity|].
  split; [reflexivity|]. split; [reflexivity|]. split; [exact Hh|].
  split.
  { intros r Hr. cbn [heap s']. rewrite !upd_other by exact Hr.
    reflexivity. }
  split; [exact He|]. split.
  - intros now now' Hlt. rewrite has_active_track_run, !He.
    change (is_paused s') with false. cbn [fst orb].
    destruct (Z.ltb_spec (Track.time (heap s c)) now); [reflexivity | lia].
  - intros now [Hpos Hle]. rewrite has_active_track_run, !He.
    change (is_paused s') with false. cbn [fst orb].
    destruct (Z.ltb_spec (Track.time (heap s c)) now); [lia|].
    destruct (Z.eqb_spec now 0); [lia|].
    destruct (Z.ltb_spec 0 now); [reflexivity | lia].
Qed.

Lemma stop_detimes_witness :
  current_track example_started = Some 0%nat /\
  result (PlayList.has_active_track 1000 1000)
    (after PlayList.stop example_started) = Ret false /\
  result (PlayList.has_active_track 150 150)
    (after PlayList.stop example_started) = Ret true.
Proof.
  assert (current_track example_started = Some 0%nat) as Hc by reflexivity.
  split; [exact Hc|].
  destruct (stop_detimes 0%nat example_started Hc)
    as (_ & _ & _ & _ & _ & _ & _ & _ & Hf & Ht).
  split; [apply Hf | apply Ht]; vm_compute; repeat split; discriminate.
Defined.

(** X18: [has_active_track], both reads of the clock giving the same value, is
    [True] exactly when the object is paused or [elapsed] is positive;
    with no current track and the pause flag clear it is [False] at
    every clock value, and so it is for a track that is not paused whose
    [time] has run out. *)
Theorem has_active_track_cases (s : State) :
  (forall now,
     exists e,
       result (PlayList.elapsed now) s = Ret e /\
       result (PlayList.has_active_track now now) s
       = Ret (is_paused s || (0 <? e))) /\
  (current_track s = None -> is_paused s = false ->
   forall now now',
     result (PlayList.has_active_track now now') s = Ret false) /\
  (forall c now now',
     current_track s = Some c -> is_paused s = false ->
     Track.time (heap s c) < now - Track.start (heap s c) ->
     result (PlayList.has_active_track now now') s = Ret false).
Proof.
  split; [|split].
  - intros now. eexists. unfold result.
    rewrite has_active_track_run, elapsed_run. cbn [fst].
    split; [reflexivity|]. f_equal. f_equal.
    match goal with |- context [?e =? 0] => 
      destruct (Z.eqb_spec e 0) as [->|Hne]; cbn;
        [reflexivity|]
    end.
    reflexivity.
  - intros Hc Hp now now'. unfold result.
    rewrite has_active_track_run, !elapsed_run, Hc, Hp. reflexivity.
  - intros c now now' Hc Hp Hlt. unfold result.
    rewrite has_active_track_run, !elapsed_run, Hc, Hp. cbn [fst orb].
    destruct (Z.ltb_spec (Track.time (heap s c))
                (now - Track.start (heap s c))); [reflexivity | lia].
Qed.

(** X19: An unpaused track never shows more elapsed time than its [time]:
    with a current track that is not paused and whose [time] is not
    negative, [elapsed] is at most [time] and [remaining] is not
    negative, whatever the clock reads. *)
Theorem remaining_not_negative (now : Z) (c : ref) (s : State) :
  current_track s = Some c -> is_paused s = false ->
  0 <= Track.time (heap s c) ->
  exists e t,
    result (PlayList.elapsed now) s = Ret e /\
    result (PlayList.remaining now) s = Ret t /\
    e <= Track.time (heap s c) /\
    0 <= t /\
    t = Track.time (heap s c) - e.
Proof.
  intros Hc Hp Ht. unfold result.
  rewrite elapsed_run, remaining_run, Hc, Hp. cbn [fst].
  destruct (Z.ltb_spec (Track.time (heap s c))
              (now - Track.start (heap s c)));
    eexists _, _; repeat split; lia.
Qed.

Lemma remaining_not_negative_witness :
  current_track example_started = Some 0%nat /\
  is_paused example_started = false /\
  0 <= Track.time (heap example_started 0%nat) /\
  exists e t,
    result (PlayList.elapsed 1000) example_started = Ret e /\
    result (PlayList.remaining 1000) example_started = Ret t /\
    0 <= t.
Proof.
  assert (current_track example_started = Some 0%nat) as Hc by reflexivity.
  assert (is_paused example_started = false) as Hp by reflexivity.
  assert (0 <= Track.time (heap example_started 0%nat)) as Ht
    by (vm_compute; discriminate).
  split; [exact Hc|]. split; [exact Hp|]. split; [exact Ht|].
  destruct (remaining_not_negative 1000 0%nat example_started Hc Hp Ht)
    as (e & t & He & Hr & _ & H0 & _).
  exists e, t. auto.
Defined.

(** ** Every queued track has an [id] *)

Lemma elem_of_delete {A} (l : list A) i x : x ∈ delete i l -> x ∈ l.
Proof.
  revert i. induction l as [|y l IH]; intros [|i]; cbn; auto.
  - intros Hx. apply elem_of_cons. auto.
  - intros Hx. apply elem_of_cons in Hx as [->|Hx].
    + apply list_elem_of_here.
    + apply elem_of_cons. right. eapply IH, Hx.
Qed.

Lemma py_delitem_subset {A} (l l' : list A) i x :
  py_delitem l i = Some l' -> x ∈ l' -> x ∈ l.
Proof.
  unfold py_delitem. intros Hd Hx.
  repeat match type of Hd with
         | (if ?b then _ else _) = _ => destruct b
         end; try discriminate; injection Hd as <-;
    eapply elem_of_delete, Hx.
Qed.

Lemma delete_step_subset acc i s s0 :
  (forall x, x ∈ track_list s -> x ∈ track_list s0) ->
  forall x, x ∈ track_list (snd (PlayList.delete_step acc i s)) ->
            x ∈ track_list s0.
Proof.
  intros Hsub x. unfold PlayList.delete_step. run.
  destruct (_ && _); [|apply Hsub].
  destruct (py_delitem (track_list s) i) as [l'|] eqn:Hd; cbn;
    [|apply Hsub].
  intros Hx. eapply Hsub, py_delitem_subset; eassumption.
Qed.

Lemma delete_subset indexes by_range s x :
  x ∈ track_list (after (PlayList.delete indexes by_range) s) ->
  x ∈ track_list s.
Proof.
  rewrite delete_after_loop. revert x.
  apply (for_fold_inv
           (fun s' => forall x, x ∈ track_list s' -> x ∈ track_list s)).
  - intros acc i s1 Hs1. apply delete_step_subset, Hs1.
  - auto.
Qed.

Lemma entries_valid_static s s' :
  same_static (heap s) (heap s') ->
  (forall x, x ∈ track_list s' -> x ∈ track_list s) ->
  entries_valid s -> entries_valid s'.
Proof.
  unfold entries_valid. rewrite !Forall_forall.
  intros Hst Hsub Hv x Hx. unfold valid in *.
  destruct (Hst x) as (-> & _). apply Hv, Hsub, Hx.
Qed.

Lemma exec_entries_valid c s : entries_valid s -> entries_valid (exec c s).
Proof.
  intros Hv.
  pose proof (exec_static c s) as Hst.
  pose proof (exec_keeps_list c s) as Hl.
  destruct c; try (apply (entries_valid_static s); [exact Hst | | exact Hv];
                   rewrite Hl; auto).
  - apply Forall_forall. intros x Hx. unfold valid.
    destruct (Hst x) as (-> & _). revert Hx. cbn [exec].
    unfold after. rewrite add_run.
    destruct (truthy (Track.id (heap s track))) eqn:Hid; cbn.
    + intros Hx. apply elem_of_app in Hx as [Hx|Hx].
      * unfold entries_valid in Hv. rewrite Forall_forall in Hv.
        apply Hv, Hx.
      * apply list_elem_of_singleton in Hx as ->. exact Hid.
    + intros Hx. unfold entries_valid in Hv. rewrite Forall_forall in Hv.
      apply Hv, Hx.
  - apply Forall_forall. intros x Hx. unfold valid.
    destruct (Hst x) as (-> & _). revert Hx. cbn [exec].
    destruct (add_list_effect owner tracks s) as (-> & _).
    intros Hx. apply elem_of_app in Hx as [Hx|Hx].
    + unfold entries_valid in Hv. rewrite Forall_forall in Hv. apply Hv, Hx.
    + apply list_elem_of_In, filter_In in Hx as [_ Hx]. exact Hx.
  - apply (entries_valid_static s); [exact Hst | | exact Hv].
    cbn [exec]. unfold after. rewrite clear_run.
    destruct (0 <? _); cbn; [|auto].
    intros x Hx. apply elem_of_nil in Hx. contradiction.
  - apply (entries_valid_static s); [exact Hst | | exact Hv].
    intros x. apply delete_subset.
Qed.

(** X23: In every reachable state every entry of [track_list] has a true
    [id]: [add] and [add_list] append only such tracks, no call assigns
    an [id], and [delete] and [clear] only take entries away. *)
Theorem reachable_entries_have_id (s : State) :
  reachable s ->
  Forall (fun t => truthy (Track.id (heap s t)) = true) (track_list s).
Proof.
  induction 1 as [h|s c _ IH].
  - constructor.
  - apply (exec_entries_valid c s IH).
Qed.

Lemma reachable_entries_have_id_witness :
  reachable
    (exec (AddList "alice" [0; 3; 4; 2]%nat) (PlayList.init example_heap)) /\
  Forall (fun t =>
            truthy (Track.id
                      (heap (exec (AddList "alice" [0; 3; 4; 2]%nat)
                               (PlayList.init example_heap)) t)) = true)
    (track_list
       (exec (AddList "alice" [0; 3; 4; 2]%nat)
          (PlayList.init example_heap))).
Proof.
  assert (reachable
            (exec (AddList "alice" [0; 3; 4; 2]%nat)
               (PlayList.init example_heap))) as Hr
    by (repeat constructor).
  split; [exact Hr | exact (reachable_entries_have_id _ Hr)].
Defined.

(** ** What each call does to the list *)

(** X22: Only [add], [add_list], [clear] and [delete] change [track_list]:
    [add] appends the track or nothing, [add_list] appends some of the
    given tracks in their order, [clear] leaves the empty list, [delete]
    leaves entries that were there, and every other call, [next_track]
    included, leaves the list as it is (a served entry stays in it). *)
Theorem track_list_footprint (c : call) (s : State) :
  match c with
  | Add _ track =>
      track_list (exec c s) = track_list s \/
      track_list (exec c s) = track_list s ++ [track]
  | AddList _ tracks =>
      exists added,
        track_list (exec c s) = track_list s ++ added /\
        sublist added tracks
  | Clear => track_list (exec c s) = []
  | Delete _ _ =>
      forall x, x ∈ track_list (exec c s) -> x ∈ track_list s
  | _ => track_list (exec c s) = track_list s
  end.
Proof.
  pose proof (exec_keeps_list c s) as Hl.
  destruct c; try exact Hl; cbn [exec].
  - exact (proj1 (add_effect owner track s)).
  - exists (List.filter (valid (heap s)) tracks).
    split; [exact (proj1 (add_list_effect owner tracks s))|].
    clear. induction tracks as [|x tracks IH]; cbn; [constructor|].
    destruct (valid (heap s) x); [apply sublist_skip | apply sublist_cons];
      exact IH.
  - unfold after. rewrite clear_run.
    destruct (Z.ltb_spec 0 (len (track_list s))) as [Hp|Hp]; cbn;
      [reflexivity|].
    destruct (track_list s) as [|x l]; [reflexivity|].
    rewrite len_cons in Hp. pose proof (len_nonneg l). lia.
  - intros x. apply delete_subset.
Qed.
